(** * Minesweeper knowledge-based agent: shallow embedding and properties

    The development follows [minesweeper/minesweeper.py]:
    - [Sentence]      the class [Sentence] (a set of cells and a mine count),
    - [Minesweeper]   the part of the game class that produces observations,
    - [MinesweeperAI] the agent: global sets, the knowledge list, and
      [add_knowledge] with its two inference passes.

    Python sets are finite sets ([gset]) of cells, a cell is a pair of
    unbounded integers, the knowledge base is a list of sentences (order and
    duplicates matter: the code iterates over it while appending). *)

From Stdlib Require Import ZArith Lia.
From stdpp Require Import base decidable option list list_numbers sets fin_sets gmap.

Local Open Scope Z_scope.
#[local] Set Warnings "-clear-no-such-hyp".

(** A cell is the tuple [(i, j)]. *)
Abbreviation Cell := (Z * Z)%type.

(** [0 <= i < height and 0 <= j < width] *)
Definition in_bounds (h w : Z) (c : Cell) : Prop :=
  (0 ≤ c.1 ∧ c.1 < h) ∧ (0 ≤ c.2 ∧ c.2 < w).

#[global] Instance in_bounds_dec h w c : Decision (in_bounds h w c).
Proof. unfold in_bounds. apply _. Defined.

(** The nested loops [for i in range(row - 1, row + 2): for j in
    range(column - 1, column + 2)], in iteration order. *)
Definition window (cell : Cell) : list Cell :=
  i ← seqZ (cell.1 - 1) 3; j ← seqZ (cell.2 - 1) 3; [(i, j)].

(** All cells of an [h] by [w] board, row by row. *)
Definition board_cells (h w : Z) : list Cell :=
  i ← seqZ 0 h; j ← seqZ 0 w; [(i, j)].

Definition board (h w : Z) : gset Cell := list_to_set (board_cells h w).

(** ** class Sentence *)
Module Sentence.

Record t : Type := mk { cells : gset Cell; count : Z }.

(** [__eq__]: same cells and same count. *)
#[global] Instance eq_dec : EqDecision t.
Proof. solve_decision. Defined.

(** [known_mines]: [self.cells] if [len(self.cells) == self.count]. *)
Definition known_mines (s : t) : gset Cell :=
  if decide (Z.of_nat (size (cells s)) = count s) then cells s else ∅.

(** [known_safes]: [self.cells] if [self.count == 0]. *)
Definition known_safes (s : t) : gset Cell :=
  if decide (count s = 0) then cells s else ∅.

Definition mark_mine (cell : Cell) (s : t) : t :=
  if decide (cell ∈ cells s)
  then {| cells := cells s ∖ {[cell]}; count := count s - 1 |}
  else s.

Definition mark_safe (cell : Cell) (s : t) : t :=
  if decide (cell ∈ cells s)
  then {| cells := cells s ∖ {[cell]}; count := count s |}
  else s.

End Sentence.

(** ** class Minesweeper (the board oracle)

    The matrix [self.board] is kept in step with the set [self.mines] by the
    constructor ([board[i][j]] is [True] exactly for the cells of
    [self.mines]), so the lookup [self.board[i][j]] is membership in
    [mines]. *)
Module Minesweeper.

Record t : Type := mk { height : Z; width : Z; mines : gset Cell }.

(** [is_mine]: for a cell of the board, [self.board[i][j]]. (Off the board
    the Python index wraps around or raises; [nearby_mines] reads the board
    only behind its bounds test.) *)
Definition is_mine (g : t) (cell : Cell) : bool := bool_decide (cell ∈ mines g).

(** One iteration of the loop body of [nearby_mines]. *)
Definition nearby_step (g : t) (cell : Cell) (count : Z) (ij : Cell) : Z :=
  if decide (ij = cell) then count
  else if decide (in_bounds (height g) (width g) ij)
       then (if is_mine g ij then count + 1 else count)
       else count.

Definition nearby_mines (g : t) (cell : Cell) : Z :=
  foldl (nearby_step g cell) 0 (window cell).

(** The loop [while len(self.mines) != mines] of [__init__]. [draws] are the
    successive pairs [(random.randrange(height), random.randrange(width))];
    [None] is the loop not yet left after these draws. The model has no
    value for the [ValueError] that [random.randrange] raises when [height]
    or [width] is not positive: draws exist only on a board with a cell. *)
Fixpoint place_mines (n : Z) (draws : list Cell) (mines : gset Cell)
    : option (gset Cell) :=
  if decide (Z.of_nat (size mines) = n) then Some mines
  else match draws with
       | [] => None
       | ij :: draws =>
           place_mines n draws
             (if decide (ij ∈ mines) then mines else {[ij]} ∪ mines)
       end.

(** [__init__]: the game with [n] mines placed by the draws. *)
Definition init (h w n : Z) (draws : list Cell) : option t :=
  M ← place_mines n draws ∅; Some (mk h w M).

End Minesweeper.

(** ** class MinesweeperAI *)
Module MinesweeperAI.

Record t : Type := mk {
  height : Z;
  width : Z;
  moves_made : gset Cell;
  mines : gset Cell;
  safes : gset Cell;
  knowledge : list Sentence.t
}.

(** [__init__] *)
Definition init (h w : Z) : t := mk h w ∅ ∅ ∅ [].

Definition set_knowledge (K : list Sentence.t) (a : t) : t :=
  mk (height a) (width a) (moves_made a) (mines a) (safes a) K.

Definition board_size (a : t) : Z := height a * width a.

Definition moves_left (a : t) : Z :=
  board_size a - Z.of_nat (size (moves_made a)) - Z.of_nat (size (mines a)).

Definition mark_mine (cell : Cell) (a : t) : t :=
  mk (height a) (width a) (moves_made a) ({[cell]} ∪ mines a) (safes a)
     (Sentence.mark_mine cell <$> knowledge a).

Definition mark_safe (cell : Cell) (a : t) : t :=
  mk (height a) (width a) (moves_made a) (mines a) ({[cell]} ∪ safes a)
     (Sentence.mark_safe cell <$> knowledge a).

(** One iteration of the loop body of [get_neighbours]; the accumulator is
    the pair [(neighbouring_cells, count)]. *)
Definition neighbours_step (a : t) (cell : Cell)
    (acc : gset Cell * Z) (ij : Cell) : gset Cell * Z :=
  if decide (ij = cell ∨ ij ∈ safes a) then acc
  else if decide (ij ∈ mines a) then (acc.1, acc.2 - 1)
  else if decide (in_bounds (height a) (width a) ij)
       then ({[ij]} ∪ acc.1, acc.2)
       else acc.

Definition get_neighbours (a : t) (cell : Cell) (count : Z) : gset Cell * Z :=
  foldl (neighbours_step a cell) (∅, count) (window cell).

(** The local sets [safes] and [mines] of [update_safes_mines], both
    collected before anything is marked. *)
Definition found_safes (a : t) : gset Cell :=
  ⋃ (Sentence.known_safes <$> knowledge a).
Definition found_mines (a : t) : gset Cell :=
  ⋃ (Sentence.known_mines <$> knowledge a).

(** [for x in xs: self.mark(x)], for the elements of a set in the order
    [elements] lists them. *)
Definition mark_all (mark : Cell → t → t) (xs : list Cell) (a : t) : t :=
  foldl (λ acc x, mark x acc) a xs.

Definition update_safes_mines (a : t) : t :=
  let safes := found_safes a in
  let mines := found_mines a in
  mark_all mark_mine (elements mines) (mark_all mark_safe (elements safes) a).

(** The sentence built from a pair with [sentence_1.cells] a subset of
    [sentence_2.cells]. *)
Definition resolve (s1 s2 : Sentence.t) : Sentence.t :=
  {| Sentence.cells := Sentence.cells s2 ∖ Sentence.cells s1;
     Sentence.count := Sentence.count s2 - Sentence.count s1 |}.

(** Body of the inner loop of [add_new_sentences] for the pair
    [(sentence_1, sentence_2)]. *)
Definition resolve_pair (K : list Sentence.t) (s1 s2 : Sentence.t)
    : list Sentence.t :=
  if decide (s1 = s2) then K
  else if decide (Sentence.cells s1 ⊆ Sentence.cells s2)
       then (let new_sentence := resolve s1 s2 in
             if decide (new_sentence ∈ K) then K else K ++ [new_sentence])
       else K.

(** The two nested [for] loops of [add_new_sentences]. Both iterate over
    [self.knowledge] by position while the body appends to it, so each
    loop ends when its index reaches the current length. [i] and [j] are
    the positions of the outer and the inner iterator; [None] is fuel
    exhausted. *)
Fixpoint resolve_loop (fuel : nat) (K : list Sentence.t) (i j : nat)
    : option (list Sentence.t) :=
  match fuel with
  | O => None
  | S fuel =>
      match K !! i with
      | None => Some K
      | Some s1 =>
          match K !! j with
          | None => resolve_loop fuel K (S i) 0
          | Some s2 => resolve_loop fuel (resolve_pair K s1 s2) i (S j)
          end
      end
  end.

Definition add_new_sentences (fuel : nat) (a : t) : option t :=
  K ← resolve_loop fuel (knowledge a) 0%nat 0%nat;
  Some (set_knowledge K a).

(** The part of [add_knowledge] before the inference passes: record the
    move, mark the cell safe, append the sentence of the observation. *)
Definition add_observation (cell : Cell) (count : Z) (a : t) : t :=
  let a1 := mark_safe cell
              (mk (height a) (width a) ({[cell]} ∪ moves_made a)
                  (mines a) (safes a) (knowledge a)) in
  let '(neighbours, new_count) := get_neighbours a1 cell count in
  set_knowledge (knowledge a1 ++ [Sentence.mk neighbours new_count]) a1.

(** The two inference passes that end [add_knowledge]. *)
Definition saturate (fuel : nat) (a : t) : option t :=
  add_new_sentences fuel (update_safes_mines a).

Definition add_knowledge (fuel : nat) (cell : Cell) (count : Z) (a : t)
    : option t :=
  saturate fuel (add_observation cell count a).

(** The loop [for move in self.safes] of [make_safe_move], over the cells
    in the order the set lists them. (Python lists a set in the order of its
    hash table, [elements] in another fixed order; which unplayed safe cell
    comes first can differ, nothing else.) *)
Fixpoint safe_move_loop (moves : list Cell) (a : t) : option Cell :=
  match moves with
  | [] => None
  | move :: moves =>
      if decide (move ∉ moves_made a) then Some move
      else safe_move_loop moves a
  end.

Definition make_safe_move (a : t) : option Cell :=
  if decide (size (safes a) = 0%nat) then None
  else safe_move_loop (elements (safes a)) a.

(** Result of [make_random_move]: [None], a cell, or the loop still
    running after the draws supplied so far. *)
Inductive move : Type :=
  | NoMove
  | Move (cell : Cell)
  | Drawing.

(** The [while True] loop of [make_random_move]. The pairs
    [(random.randrange(height), random.randrange(width))] are given as the
    list [draws] of the successive draws (they exist when [height] and
    [width] are positive; [random.randrange] raises otherwise). *)
Fixpoint draw_loop (draws : list Cell) (a : t) : move :=
  match draws with
  | [] => Drawing
  | cell :: draws =>
      if decide ((cell ∉ moves_made a) ∧ (cell ∉ mines a)) then Move cell
      else draw_loop draws a
  end.

Definition make_random_move (draws : list Cell) (a : t) : move :=
  if decide (moves_left a = 0) then NoMove else draw_loop draws a.

(** *** Program points

    The states the agent goes through inside one call, in order: after
    each [Sentence.mark_*] call of a [mark_*] loop, after the append of
    the observation, after each execution of the inner body of
    [add_new_sentences]. *)

(** [self.<set>.add(cell)] followed by the loop over [self.knowledge]:
    after [k] iterations the first [k] sentences are updated. [a'] is the
    state with the global set already updated. *)
Definition mark_points (smark : Cell → Sentence.t → Sentence.t)
    (cell : Cell) (a' : t) : list t :=
  (λ k, set_knowledge ((smark cell <$> take k (knowledge a'))
                         ++ drop k (knowledge a')) a')
    <$> seq 0 (S (length (knowledge a'))).

Definition mark_safe_points (cell : Cell) (a : t) : list t :=
  mark_points Sentence.mark_safe cell
    (mk (height a) (width a) (moves_made a) (mines a) ({[cell]} ∪ safes a)
        (knowledge a)).

Definition mark_mine_points (cell : Cell) (a : t) : list t :=
  mark_points Sentence.mark_mine cell
    (mk (height a) (width a) (moves_made a) ({[cell]} ∪ mines a) (safes a)
        (knowledge a)).

Fixpoint mark_all_points (mark : Cell → t → t) (points : Cell → t → list t)
    (xs : list Cell) (a : t) : list t :=
  match xs with
  | [] => []
  | x :: xs => points x a ++ mark_all_points mark points xs (mark x a)
  end.

Definition update_safes_mines_points (a : t) : list t :=
  let safes := found_safes a in
  let mines := found_mines a in
  mark_all_points mark_safe mark_safe_points (elements safes) a
  ++ mark_all_points mark_mine mark_mine_points (elements mines)
       (mark_all mark_safe (elements safes) a).

Fixpoint resolve_loop_points (fuel : nat) (K : list Sentence.t) (i j : nat)
    : list (list Sentence.t) :=
  match fuel with
  | O => []
  | S fuel =>
      match K !! i with
      | None => []
      | Some s1 =>
          match K !! j with
          | None => resolve_loop_points fuel K (S i) 0
          | Some s2 =>
              resolve_pair K s1 s2
              :: resolve_loop_points fuel (resolve_pair K s1 s2) i (S j)
          end
      end
  end.

Definition add_knowledge_points (fuel : nat) (cell : Cell) (count : Z)
    (a : t) : list t :=
  let a0 := mk (height a) (width a) ({[cell]} ∪ moves_made a)
               (mines a) (safes a) (knowledge a) in
  let a2 := add_observation cell count a in
  let a3 := update_safes_mines a2 in
  a0 :: mark_safe_points cell a0
  ++ a2 :: update_safes_mines_points a2
  ++ ((λ K, set_knowledge K a3)
        <$> resolve_loop_points fuel (knowledge a3) 0%nat 0%nat).

End MinesweeperAI.

Import MinesweeperAI.

(** ** Boards, well-formed observations, reachable states *)

(** The game keeps its mines on the board. *)
Definition wf_game (g : Minesweeper.t) : Prop :=
  Minesweeper.mines g ⊆ board (Minesweeper.height g) (Minesweeper.width g).

(** A well-formed observation: the board tells, for a revealed cell that is
    not a mine, the number of mines around it. *)
Definition wf_obs (g : Minesweeper.t) (cell : Cell) (count : Z) : Prop :=
  in_bounds (Minesweeper.height g) (Minesweeper.width g) cell
  ∧ (cell ∉ Minesweeper.mines g)
  ∧ count = Minesweeper.nearby_mines g cell.

(** Agent states reached from a fresh agent by calls of [add_knowledge] with
    observations of the game [g]. *)
Inductive reachable (g : Minesweeper.t) : MinesweeperAI.t → Prop :=
  | reachable_init :
      reachable g (init (Minesweeper.height g) (Minesweeper.width g))
  | reachable_step a fuel cell count a' :
      reachable g a →
      wf_obs g cell count →
      add_knowledge fuel cell count a = Some a' →
      reachable g a'.

(** Agent states reached by calls of [add_knowledge] with any arguments. *)
Inductive called (h w : Z) : MinesweeperAI.t → Prop :=
  | called_init : called h w (init h w)
  | called_step a fuel cell count a' :
      called h w a →
      add_knowledge fuel cell count a = Some a' →
      called h w a'.

(** A sentence is true of the game: its cells are on the board and its count
    is the number of mines among them. *)
Definition sound (g : Minesweeper.t) (s : Sentence.t) : Prop :=
  Sentence.cells s ⊆ board (Minesweeper.height g) (Minesweeper.width g)
  ∧ Sentence.count s = Z.of_nat (size (Sentence.cells s ∩ Minesweeper.mines g)).

(** The agent's knowledge is true of the game. *)
Record consistent (g : Minesweeper.t) (a : MinesweeperAI.t) : Prop := {
  consistent_height : height a = Minesweeper.height g;
  consistent_width : width a = Minesweeper.width g;
  consistent_safes : safes a ## Minesweeper.mines g;
  consistent_safes_board :
    safes a ⊆ board (Minesweeper.height g) (Minesweeper.width g);
  consistent_mines : mines a ⊆ Minesweeper.mines g;
  consistent_moves : moves_made a ⊆ safes a;
  consistent_knowledge : Forall (sound g) (knowledge a)
}.

(** A cell of the board without a mine, resp. a mine of the game. *)
Definition truly_safe (g : Minesweeper.t) (c : Cell) : Prop :=
  (c ∉ Minesweeper.mines g)
  ∧ c ∈ board (Minesweeper.height g) (Minesweeper.width g).
Definition truly_mine (g : Minesweeper.t) (c : Cell) : Prop :=
  c ∈ Minesweeper.mines g.

(** [0 <= count <= |cells|] *)
Definition count_in_range (s : Sentence.t) : Prop :=
  0 ≤ Sentence.count s ≤ Z.of_nat (size (Sentence.cells s)).

(** Every pair the inner body of [add_new_sentences] would resolve already
    has its sentence in the list. *)
Definition resolved (K : list Sentence.t) : Prop :=
  ∀ s1 s2, s1 ∈ K → s2 ∈ K → s1 ≠ s2 →
    Sentence.cells s1 ⊆ Sentence.cells s2 → resolve s1 s2 ∈ K.

(** Neither inference pass has anything to do. *)
Definition quiescent (a : MinesweeperAI.t) : Prop :=
  found_safes a = ∅ ∧ found_mines a = ∅ ∧ resolved (knowledge a).

(** All subsets of the set of the cells listed in [l]. *)
Fixpoint subsets (l : list Cell) : gset (gset Cell) :=
  match l with
  | [] => {[ ∅ ]}
  | x :: l => subsets l ∪ set_map (λ X : gset Cell, {[x]} ∪ X) (subsets l)
  end.

(** The cell sets over the board that no sentence of [K] has yet. *)
Definition unused (h w : Z) (K : list Sentence.t) : gset (gset Cell) :=
  subsets (board_cells h w) ∖ list_to_set (Sentence.cells <$> K).

(** No sentence mentions a cell that is classified safe or mine. *)
Definition pruned (a : MinesweeperAI.t) : Prop :=
  Forall (λ s, Sentence.cells s ## safes a ∪ mines a) (knowledge a).

(** A sentence with the cells of [S] removed as safe and then the cells of
    [M] removed as mines. *)
Definition prune (S M : gset Cell) (s : Sentence.t) : Sentence.t :=
  Sentence.mk (Sentence.cells s ∖ (S ∪ M))
              (Sentence.count s - Z.of_nat (size (Sentence.cells s ∩ (M ∖ S)))).

(** The cells of the loops of [get_neighbours] that end up in the sentence,
    and those that lower the count. *)
Definition unknown_neighbour (a : MinesweeperAI.t) (cell c : Cell) : Prop :=
  c ≠ cell ∧ (c ∉ safes a) ∧ (c ∉ mines a) ∧ in_bounds (height a) (width a) c.
Definition flagged_neighbour (a : MinesweeperAI.t) (cell c : Cell) : Prop :=
  c ≠ cell ∧ (c ∉ safes a) ∧ c ∈ mines a.

(** The cells the loops of [nearby_mines] count. *)
Definition mined_neighbour (g : Minesweeper.t) (cell c : Cell) : Prop :=
  c ≠ cell ∧ in_bounds (Minesweeper.height g) (Minesweeper.width g) c
  ∧ c ∈ Minesweeper.mines g.

#[global] Instance unknown_neighbour_dec a cell c :
  Decision (unknown_neighbour a cell c).
Proof. unfold unknown_neighbour. apply _. Defined.
#[global] Instance flagged_neighbour_dec a cell c :
  Decision (flagged_neighbour a cell c).
Proof. unfold flagged_neighbour. apply _. Defined.
#[global] Instance mined_neighbour_dec g cell c :
  Decision (mined_neighbour g cell c).
Proof. unfold mined_neighbour. apply _. Defined.

(** ** Replaying observations

    [replay fuel obs a] calls [add_knowledge] for each observation of [obs]
    in turn; [after fuel obs h w] is the state of a fresh agent after them. *)
Definition replay (fuel : nat) (obs : list (Cell * Z)) (a : MinesweeperAI.t)
    : option MinesweeperAI.t :=
  foldl (λ oa o, a ← oa; add_knowledge fuel o.1 o.2 a) (Some a) obs.

Definition after (fuel : nat) (obs : list (Cell * Z)) (h w : Z)
    : MinesweeperAI.t :=
  default (init h w) (replay fuel obs (init h w)).

(** The sentence over the listed cells. *)
Definition sentence (cells : list Cell) (count : Z) : Sentence.t :=
  Sentence.mk (list_to_set cells) count.

(** Games and observations used in the examples. [obs_a] and [obs_b] are
    observations of [game_a] and [game_b], [obs_d] of [game_d]; [obs_c] and
    [obs_e] report a mine where the board (of one cell, resp. of one row
    of three cells) has none to report. *)
Definition game_a : Minesweeper.t := Minesweeper.mk 2 3 {[ (1, 0) ]}.
Definition game_c : Minesweeper.t := Minesweeper.mk 1 1 ∅.
Definition game_d : Minesweeper.t := Minesweeper.mk 2 2 {[ (1, 1) ]}.

Definition obs_a1 : list (Cell * Z) := [((0, 0), 1)].
Definition obs_a : list (Cell * Z) := [((0, 0), 1); ((0, 1), 1)].
Definition obs_c : list (Cell * Z) := [((0, 0), 1)].
Definition obs_d : list (Cell * Z) := [((0, 0), 1); ((0, 1), 1); ((1, 0), 1)].
Definition obs_e : list (Cell * Z) := [((0, 0), 1); ((0, 1), 0)].
(** A 3x3 game with its mine in a corner and two observations of it; the
    sentence [{} = 0] they leave is a subset pair with the second one. *)
Definition game_g : Minesweeper.t := Minesweeper.mk 3 3 {[ (2, 2) ]}.
Definition obs_g : list (Cell * Z) := [((0, 0), 0); ((1, 1), 1)].

(** Three observations of [game_a]. *)
Definition obs_f : list (Cell * Z) := [((0, 0), 1); ((0, 1), 1); ((0, 2), 0)].

(** ** Cells and boards *)

Lemma elem_of_board h w c : c ∈ board h w ↔ in_bounds h w c.
Proof.
  unfold board, board_cells, in_bounds. rewrite elem_of_list_to_set.
  rewrite list_elem_of_bind. split.
  - intros (i & Hj & Hi). apply list_elem_of_bind in Hj as (j & Hc & Hj).
    apply list_elem_of_singleton in Hc as ->.
    apply elem_of_seqZ in Hi, Hj. simpl. lia.
  - intros [Hi Hj]. exists c.1. split; [|apply elem_of_seqZ; lia].
    apply list_elem_of_bind. exists c.2. split; [|apply elem_of_seqZ; lia].
    destruct c. simpl. apply list_elem_of_singleton. done.
Qed.

(** ** Sentences that are true of the game *)

Section Soundness.
Context (g : Minesweeper.t).
Local Abbreviation M := (Minesweeper.mines g).
Local Abbreviation B := (board (Minesweeper.height g) (Minesweeper.width g)).

Lemma sound_count_in_range s : sound g s → count_in_range s.
Proof.
  intros [_ Hn]. unfold count_in_range. rewrite Hn.
  assert (size (Sentence.cells s ∩ M) ≤ size (Sentence.cells s))%nat
    by (apply subseteq_size; set_solver).
  lia.
Qed.

Lemma sound_mark_safe c s :
  c ∉ M → sound g s → sound g (Sentence.mark_safe c s).
Proof.
  intros Hc [Hb Hn]. unfold Sentence.mark_safe. case_decide; [|done].
  split; simpl; [set_solver|].
  rewrite Hn. do 2 f_equal. set_solver.
Qed.

Lemma sound_mark_mine c s :
  c ∈ M → sound g s → sound g (Sentence.mark_mine c s).
Proof.
  intros Hc [Hb Hn]. unfold Sentence.mark_mine. case_decide as Hin; [|done].
  split; simpl; [set_solver|].
  assert (Sentence.cells s ∩ M
          = {[c]} ∪ (Sentence.cells s ∖ {[c]}) ∩ M) as Heq.
  { apply set_eq. intros x. destruct (decide (x = c)); set_solver. }
  rewrite Hn, Heq, size_union, size_singleton by set_solver. lia.
Qed.

Lemma sound_resolve s1 s2 :
  Sentence.cells s1 ⊆ Sentence.cells s2 →
  sound g s1 → sound g s2 → sound g (resolve s1 s2).
Proof.
  intros Hsub [Hb1 Hn1] [Hb2 Hn2]. split; simpl; [set_solver|].
  assert ((Sentence.cells s2 ∖ Sentence.cells s1) ∩ M
          = (Sentence.cells s2 ∩ M) ∖ (Sentence.cells s1 ∩ M)) as -> by set_solver.
  assert (Sentence.cells s1 ∩ M ⊆ Sentence.cells s2 ∩ M) as Hsub' by set_solver.
  rewrite size_difference by done. apply subseteq_size in Hsub'. lia.
Qed.

(** A true sentence is determined by its cells. *)
Lemma sound_cells_inj s1 s2 :
  sound g s1 → sound g s2 → Sentence.cells s1 = Sentence.cells s2 → s1 = s2.
Proof.
  intros [_ Hn1] [_ Hn2] Heq. destruct s1, s2; simpl in *. subst. done.
Qed.

End Soundness.

(** ** The window around a cell *)

Lemma window_cells cell :
  window cell =
    [(cell.1 - 1, cell.2 - 1); (cell.1 - 1, cell.2); (cell.1 - 1, cell.2 + 1);
     (cell.1, cell.2 - 1); (cell.1, cell.2); (cell.1, cell.2 + 1);
     (cell.1 + 1, cell.2 - 1); (cell.1 + 1, cell.2); (cell.1 + 1, cell.2 + 1)].
Proof.
  unfold window, seqZ. change (Z.to_nat 3) with 3%nat. cbn.
  repeat (f_equal; try lia).
Qed.

Lemma NoDup_window cell : NoDup (window cell).
Proof.
  rewrite window_cells.
  repeat (apply NoDup_cons; split;
          [intros H;
           repeat (apply elem_of_cons in H as [H|H]; [inversion H; lia|]);
           by apply elem_of_nil in H|]).
  apply NoDup_nil_2.
Qed.

(** ** The sentence of an observation is true of the game *)

Section Observation.
Context (g : Minesweeper.t) (a : MinesweeperAI.t) (cell : Cell).
Local Abbreviation M := (Minesweeper.mines g).
Local Abbreviation B := (board (Minesweeper.height g) (Minesweeper.width g)).
Hypothesis Hgame : wf_game g.
Hypothesis Hcons : consistent g a.

(** The loops of [get_neighbours] and [nearby_mines] run over the same
    cells; the quantity [count + seen - |cells ∩ mines|] is the same before
    and after every iteration. *)
Lemma neighbours_step_balance S c n x :
  x ∉ S → S ⊆ B →
  let r := neighbours_step a cell (S, c) x in
  r.1 ⊆ B ∧ r.1 ⊆ {[x]} ∪ S
  ∧ r.2 + Minesweeper.nearby_step g cell n x - Z.of_nat (size (r.1 ∩ M))
    = c + n - Z.of_nat (size (S ∩ M)).
Proof.
  destruct Hcons as [Hh Hw Hs Hsb Hm _ _]. intros HxS HS.
  unfold neighbours_step, Minesweeper.nearby_step, Minesweeper.is_mine.
  rewrite Hh, Hw.
  destruct (decide (x = cell ∨ x ∈ safes a)) as [Hskip|Hskip]; simpl.
  { split; [done|]. split; [set_solver|].
    repeat case_decide; try lia; (case_bool_decide; [set_solver|lia]). }
  rewrite (decide_False (P := x = cell)) by tauto.
  destruct (decide (x ∈ mines a)) as [Hmine|Hmine]; simpl.
  { assert (x ∈ M) as HxM by set_solver.
    rewrite decide_True by (apply elem_of_board, Hgame, HxM).
    rewrite bool_decide_eq_true_2 by done.
    split; [done|]. split; [set_solver|lia]. }
  destruct (decide (in_bounds (Minesweeper.height g) (Minesweeper.width g) x))
    as [Hin|Hin]; simpl; [|split; [done|split; [set_solver|lia]]].
  apply elem_of_board in Hin.
  split; [set_solver|]. split; [done|].
  case_bool_decide as HxM.
  - assert (({[x]} ∪ S) ∩ M = {[x]} ∪ S ∩ M) as -> by set_solver.
    rewrite size_union, size_singleton by set_solver. lia.
  - assert (({[x]} ∪ S) ∩ M = S ∩ M) as -> by set_solver. lia.
Qed.

Lemma neighbours_balance l S c n :
  NoDup l → (∀ x, x ∈ l → x ∉ S) → S ⊆ B →
  let r := foldl (neighbours_step a cell) (S, c) l in
  r.1 ⊆ B
  ∧ r.2 + foldl (Minesweeper.nearby_step g cell) n l
      - Z.of_nat (size (r.1 ∩ M))
    = c + n - Z.of_nat (size (S ∩ M)).
Proof.
  revert S c n. induction l as [|x l IH]; intros S c n Hnd Hfresh HS; simpl.
  { split; [done|lia]. }
  apply NoDup_cons in Hnd as [Hx Hnd].
  destruct (neighbours_step_balance S c n x) as (HB & Hsub & Heq);
    [set_solver|done|].
  destruct (neighbours_step a cell (S, c) x) as [S' c'] eqn:Hstep.
  simpl in *.
  destruct (IH S' c' (Minesweeper.nearby_step g cell n x))
    as [HB' Heq']; [done|set_solver|done|].
  simpl in *. split; [done|lia].
Qed.

Lemma get_neighbours_sound :
  let r := get_neighbours a cell (Minesweeper.nearby_mines g cell) in
  sound g (Sentence.mk r.1 r.2).
Proof.
  unfold get_neighbours, Minesweeper.nearby_mines.
  generalize (NoDup_window cell). generalize (window cell). intros l Hnd.
  destruct (neighbours_balance l ∅
              (foldl (Minesweeper.nearby_step g cell) 0 l) 0 Hnd)
    as [HB Heq]; [set_solver|set_solver|].
  destruct (foldl (neighbours_step a cell) _ l) as [S c].
  split; simpl in *; [done|].
  rewrite intersection_empty_l_L, size_empty in Heq. lia.
Qed.

End Observation.

(** ** The agent's operations keep its knowledge true *)

Section Consistency.
Context (g : Minesweeper.t).
Local Abbreviation M := (Minesweeper.mines g).
Local Abbreviation B := (board (Minesweeper.height g) (Minesweeper.width g)).

Lemma consistent_init :
  consistent g (init (Minesweeper.height g) (Minesweeper.width g)).
Proof. split; simpl; try done; set_solver. Qed.

Lemma consistent_set_knowledge K a :
  consistent g a → Forall (sound g) K → consistent g (set_knowledge K a).
Proof. intros [] HK. split; done. Qed.

Lemma consistent_mark_safe c a :
  truly_safe g c → consistent g a → consistent g (mark_safe c a).
Proof.
  intros [Hc Hb] [Hh Hw Hs Hsb Hm Hmv HK].
  split; simpl; [done|done|set_solver|set_solver|done|set_solver|].
  apply Forall_fmap. eapply Forall_impl; [exact HK|].
  intros s Hsound. by apply sound_mark_safe.
Qed.

Lemma consistent_mark_mine c a :
  truly_mine g c → consistent g a → consistent g (mark_mine c a).
Proof.
  intros Hc [Hh Hw Hs Hsb Hm Hmv HK]. unfold truly_mine in Hc.
  split; simpl; [done|done|done|done|set_solver|done|].
  apply Forall_fmap. eapply Forall_impl; [exact HK|].
  intros s Hsound. by apply sound_mark_mine.
Qed.

Lemma consistent_mark_all (P : Cell → Prop) mark xs a :
  (∀ c a, P c → consistent g a → consistent g (mark c a)) →
  Forall P xs → consistent g a → consistent g (mark_all mark xs a).
Proof.
  intros Hmark Hxs. revert a. unfold mark_all.
  induction Hxs as [|x xs Hx _ IH]; intros a Ha; simpl; [done|].
  apply IH, Hmark; done.
Qed.

Lemma found_safes_truly_safe a c :
  consistent g a → c ∈ found_safes a → truly_safe g c.
Proof.
  intros Ha Hc. unfold found_safes in Hc.
  apply elem_of_union_list in Hc as (X & HX & Hc).
  apply list_elem_of_fmap in HX as (s & -> & Hs).
  pose proof (consistent_knowledge _ _ Ha) as HK.
  rewrite Forall_forall in HK. destruct (HK s Hs) as [Hb Hn].
  unfold Sentence.known_safes in Hc. case_decide as H0; [|set_solver].
  split; [|set_solver].
  assert (size (Sentence.cells s ∩ M) = 0%nat) as Hsz by lia.
  apply size_empty_inv in Hsz. set_solver.
Qed.

Lemma found_mines_truly_mine a c :
  consistent g a → c ∈ found_mines a → truly_mine g c.
Proof.
  intros Ha Hc. unfold found_mines in Hc.
  apply elem_of_union_list in Hc as (X & HX & Hc).
  apply list_elem_of_fmap in HX as (s & -> & Hs).
  pose proof (consistent_knowledge _ _ Ha) as HK.
  rewrite Forall_forall in HK. destruct (HK s Hs) as [Hb Hn].
  unfold Sentence.known_mines in Hc. case_decide as H0; [|set_solver].
  assert (Sentence.cells s ∩ M = Sentence.cells s) as Heq.
  { apply set_subseteq_size_eq; [set_solver|lia]. }
  unfold truly_mine. set_solver.
Qed.

Lemma consistent_update_safes_mines a :
  consistent g a → consistent g (update_safes_mines a).
Proof.
  intros Ha. unfold update_safes_mines.
  apply (consistent_mark_all (truly_mine g)); [apply consistent_mark_mine| |].
  - apply Forall_forall. intros c Hc%elem_of_elements.
    by eapply found_mines_truly_mine.
  - apply (consistent_mark_all (truly_safe g)); [apply consistent_mark_safe| |done].
    apply Forall_forall. intros c Hc%elem_of_elements.
    by eapply found_safes_truly_safe.
Qed.

(** The state after [self.moves_made.add(cell)]. *)
Lemma consistent_played cell a :
  consistent g a →
  consistent g (mark_safe cell
    (mk (height a) (width a) ({[cell]} ∪ moves_made a) (mines a) (safes a)
        (knowledge a))) ↔
  consistent g (mark_safe cell a).
Proof.
  intros Ha. split; intros []; split; simpl in *; try done; set_solver.
Qed.

Lemma sound_resolve_pair K s1 s2 :
  Forall (sound g) K → s1 ∈ K → s2 ∈ K →
  Forall (sound g) (resolve_pair K s1 s2).
Proof.
  intros HK H1 H2. unfold resolve_pair.
  repeat case_decide; try done.
  apply Forall_app. split; [done|]. apply Forall_singleton.
  rewrite Forall_forall in HK. apply sound_resolve; auto.
Qed.

Hypothesis Hgame : wf_game g.

Lemma consistent_add_observation cell count a :
  wf_obs g cell count → consistent g a →
  consistent g (add_observation cell count a).
Proof.
  intros (Hin & Hsafe & ->) Ha. unfold add_observation.
  assert (truly_safe g cell) as Hcell by (split; [done|by apply elem_of_board]).
  set (a1 := mark_safe cell _).
  assert (consistent g a1) as Ha1
    by (apply consistent_played; [done|by apply consistent_mark_safe]).
  pose proof (get_neighbours_sound g a1 cell Hgame Ha1) as Hs.
  destruct (get_neighbours a1 cell _) as [nb c]. simpl in Hs.
  apply consistent_set_knowledge; [done|].
  apply Forall_app. split; [apply Ha1|]. by apply Forall_singleton.
Qed.

End Consistency.

(** ** The loops of [add_new_sentences] *)

Lemma resolve_pair_prefix K s1 s2 : K `prefix_of` resolve_pair K s1 s2.
Proof.
  unfold resolve_pair. repeat case_decide; try done.
  by apply prefix_app_r.
Qed.

Lemma resolve_pair_elem K s1 s2 :
  s1 ≠ s2 → Sentence.cells s1 ⊆ Sentence.cells s2 →
  resolve s1 s2 ∈ resolve_pair K s1 s2.
Proof.
  intros Hne Hsub. unfold resolve_pair.
  rewrite decide_False, decide_True by done. simpl.
  case_decide; [done|]. apply elem_of_app. right. by left.
Qed.

(** A property of the list that every execution of the inner body keeps
    holds when the loops end, and at every point on the way. *)
Section LoopInvariant.
Context (P : list Sentence.t → Prop).
Hypothesis Hbody :
  ∀ K s1 s2, P K → s1 ∈ K → s2 ∈ K → P (resolve_pair K s1 s2).

Lemma resolve_loop_invariant fuel K i j K' :
  P K → resolve_loop fuel K i j = Some K' → P K'.
Proof.
  revert K i j. induction fuel as [|fuel IH]; intros K i j HP; simpl; [done|].
  destruct (K !! i) as [s1|] eqn:Hi; [|by intros [= <-]].
  destruct (K !! j) as [s2|] eqn:Hj; [|by apply IH].
  apply IH, Hbody; [done|by eapply list_elem_of_lookup_2..].
Qed.

Lemma resolve_loop_points_invariant fuel K i j :
  P K → Forall P (resolve_loop_points fuel K i j).
Proof.
  revert K i j. induction fuel as [|fuel IH]; intros K i j HP; simpl; [done|].
  destruct (K !! i) as [s1|] eqn:Hi; [|done].
  destruct (K !! j) as [s2|] eqn:Hj; [|by apply IH].
  assert (P (resolve_pair K s1 s2))
    by (apply Hbody; [done|by eapply list_elem_of_lookup_2..]).
  constructor; [done|by apply IH].
Qed.
End LoopInvariant.

Lemma resolve_loop_prefix fuel K i j K' :
  resolve_loop fuel K i j = Some K' → K `prefix_of` K'.
Proof.
  apply (resolve_loop_invariant (λ K', K `prefix_of` K')); [|done].
  intros K1 s1 s2 HK _ _. etrans; [done|apply resolve_pair_prefix].
Qed.

Lemma resolve_loop_fuel_mono fuel fuel' K i j K' :
  resolve_loop fuel K i j = Some K' → (fuel ≤ fuel')%nat →
  resolve_loop fuel' K i j = Some K'.
Proof.
  revert fuel' K i j. induction fuel as [|fuel IH]; intros fuel' K i j; [done|].
  intros Hrun Hle. destruct fuel' as [|fuel']; [lia|]. simpl in *.
  destruct (K !! i); [|done].
  destruct (K !! j); apply IH; (done || lia).
Qed.

(** The pair at positions [(p, q)] of the list is resolved once the
    iterators have not passed it; nothing is ever removed afterwards. *)
Lemma resolve_loop_visits fuel K i j K' p q s1 s2 :
  resolve_loop fuel K i j = Some K' →
  K !! p = Some s1 → K !! q = Some s2 →
  (i < p ∨ (i = p ∧ j ≤ q))%nat →
  s1 ≠ s2 → Sentence.cells s1 ⊆ Sentence.cells s2 →
  resolve s1 s2 ∈ K'.
Proof.
  intros Hrun Hp Hq Hpos Hne Hsub. revert K i j Hrun Hp Hq Hpos.
  induction fuel as [|fuel IH]; intros K i j Hrun Hp Hq Hpos; simpl in *; [done|].
  pose proof (lookup_lt_Some _ _ _ Hp) as Hplt.
  pose proof (lookup_lt_Some _ _ _ Hq) as Hqlt.
  destruct (K !! i) as [x|] eqn:Hi;
    [|apply lookup_ge_None in Hi; lia].
  destruct (K !! j) as [y|] eqn:Hj.
  - pose proof (resolve_pair_prefix K x y) as Hpre.
    destruct (decide (i = p ∧ j = q)) as [[-> ->]|Hnot].
    + assert (x = s1) as -> by congruence. assert (y = s2) as -> by congruence.
      apply resolve_loop_prefix in Hrun. destruct Hrun as [k ->].
      apply elem_of_app. left. by apply resolve_pair_elem.
    + eapply IH; [done| | |lia]; by eapply prefix_lookup_Some.
  - apply lookup_ge_None in Hj. eapply IH; [done..|lia].
Qed.

(** If every execution of the inner body either leaves the list alone or
    lowers a measure, the loops end. *)
Section LoopTermination.
Context (P : list Sentence.t → Prop) (μ : list Sentence.t → nat).
Hypothesis Hbody :
  ∀ K s1 s2, P K → s1 ∈ K → s2 ∈ K →
    P (resolve_pair K s1 s2)
    ∧ (resolve_pair K s1 s2 = K ∨ (μ (resolve_pair K s1 s2) < μ K)%nat).

Lemma resolve_loop_terminates K i j :
  P K → ∃ fuel K', resolve_loop fuel K i j = Some K' ∧ P K'.
Proof.
  remember (μ K) as n eqn:Hn. revert K Hn i j.
  induction n as [n IHn] using lt_wf_ind. intros K Hn i.
  remember (length K - i)%nat as m eqn:Hm. revert i Hm.
  induction m as [m IHm] using lt_wf_ind. intros i Hm j.
  remember (length K - j)%nat as r eqn:Hr. revert j Hr.
  induction r as [r IHr] using lt_wf_ind. intros j Hr HP.
  destruct (K !! i) as [s1|] eqn:Hi; [|exists 1%nat, K; simpl; by rewrite Hi].
  pose proof (lookup_lt_Some _ _ _ Hi) as Hilt.
  destruct (K !! j) as [s2|] eqn:Hj.
  - pose proof (lookup_lt_Some _ _ _ Hj) as Hjlt.
    destruct (Hbody K s1 s2) as [HP' [Heq|Hlt]];
      [done|by eapply list_elem_of_lookup_2..| |].
    + destruct (IHr (length K - S j)%nat ltac:(lia) (S j) eq_refl HP)
        as (fuel & K' & Hrun & HK').
      exists (S fuel), K'. simpl. rewrite Hi, Hj, Heq. done.
    + rewrite <- Hn in Hlt.
      destruct (IHn _ Hlt (resolve_pair K s1 s2) eq_refl i (S j) HP')
        as (fuel & K' & Hrun & HK').
      exists (S fuel), K'. simpl. rewrite Hi, Hj. done.
  - destruct (IHm (length K - S i)%nat ltac:(lia) (S i) eq_refl 0%nat HP)
      as (fuel & K' & Hrun & HK').
    exists (S fuel), K'. simpl. rewrite Hi, Hj. done.
Qed.
End LoopTermination.

Lemma resolve_pair_cases K s1 s2 :
  resolve_pair K s1 s2 = K
  ∨ (resolve_pair K s1 s2 = K ++ [resolve s1 s2]
     ∧ s1 ≠ s2 ∧ Sentence.cells s1 ⊆ Sentence.cells s2
     ∧ resolve s1 s2 ∉ K).
Proof. unfold resolve_pair. repeat case_decide; auto. Qed.

(** ** Termination on knowledge that is true of a game *)

Lemma subsets_spec (l : list Cell) (X : gset Cell) : X ⊆ list_to_set l → X ∈ subsets l.
Proof.
  revert X. induction l as [|x l IH]; intros X HX; simpl in *.
  { apply elem_of_singleton. set_solver. }
  destruct (decide (x ∈ X)) as [Hx|Hx]; apply elem_of_union.
  - right. apply elem_of_map. exists (X ∖ {[x]}). split.
    + apply set_eq. intros y. destruct (decide (y = x)); set_solver.
    + apply IH. set_solver.
  - left. apply IH. set_solver.
Qed.

Section SoundTermination.
Context (g : Minesweeper.t).
Local Abbreviation h := (Minesweeper.height g).
Local Abbreviation w := (Minesweeper.width g).

Lemma unused_append K n :
  Forall (sound g) K → sound g n → n ∉ K →
  (size (unused h w (K ++ [n])) < size (unused h w K))%nat.
Proof.
  intros HK Hn Hnew. apply subset_size.
  assert (Sentence.cells n ∈ unused h w K) as Hin.
  { unfold unused. apply elem_of_difference. split.
    - apply subsets_spec. apply Hn.
    - rewrite elem_of_list_to_set, list_elem_of_fmap. intros (s & Heq & Hs).
      rewrite Forall_forall in HK.
      apply Hnew. by rewrite (sound_cells_inj g n s Hn (HK s Hs) Heq). }
  assert (unused h w (K ++ [n]) = unused h w K ∖ {[Sentence.cells n]}) as ->.
  { unfold unused. rewrite fmap_app, list_to_set_app_L. simpl. set_solver. }
  set_solver.
Qed.

Lemma sound_loop_body K s1 s2 :
  Forall (sound g) K → s1 ∈ K → s2 ∈ K →
  Forall (sound g) (resolve_pair K s1 s2)
  ∧ (resolve_pair K s1 s2 = K
     ∨ (size (unused h w (resolve_pair K s1 s2)) < size (unused h w K))%nat).
Proof.
  intros HK H1 H2. split; [by apply sound_resolve_pair|].
  destruct (resolve_pair_cases K s1 s2) as [->|(-> & Hne & Hsub & Hnew)];
    [by left|right].
  apply unused_append; [done| |done].
  rewrite Forall_forall in HK. apply sound_resolve; auto.
Qed.

Lemma sound_resolve_loop_terminates K i j :
  Forall (sound g) K →
  ∃ fuel K', resolve_loop fuel K i j = Some K' ∧ Forall (sound g) K'.
Proof.
  apply (resolve_loop_terminates (Forall (sound g))
           (λ K, size (unused h w K))).
  apply sound_loop_body.
Qed.

Lemma consistent_saturate a :
  consistent g a →
  ∃ fuel a', saturate fuel a = Some a' ∧ consistent g a'.
Proof.
  intros Ha. apply consistent_update_safes_mines in Ha.
  destruct (sound_resolve_loop_terminates (knowledge (update_safes_mines a))
              0%nat 0%nat) as (fuel & K' & Hrun & HK'); [apply Ha|].
  exists fuel, (set_knowledge K' (update_safes_mines a)).
  unfold saturate, add_new_sentences. rewrite Hrun. simpl.
  split; [done|]. by apply consistent_set_knowledge.
Qed.

Lemma consistent_saturate_result fuel a a' :
  consistent g a → saturate fuel a = Some a' → consistent g a'.
Proof.
  intros Ha Hsat. apply consistent_update_safes_mines in Ha.
  unfold saturate, add_new_sentences in Hsat.
  destruct (resolve_loop fuel _ _ _) as [K'|] eqn:Hrun; [|done].
  injection Hsat as <-. apply consistent_set_knowledge; [done|].
  eapply (resolve_loop_invariant (Forall (sound g))); [|apply Ha|done].
  intros. by apply sound_resolve_pair.
Qed.

Hypothesis Hgame : wf_game g.

Lemma consistent_add_knowledge fuel cell count a a' :
  wf_obs g cell count → consistent g a →
  add_knowledge fuel cell count a = Some a' → consistent g a'.
Proof.
  intros Hobs Ha. apply consistent_saturate_result.
  by apply consistent_add_observation.
Qed.

Lemma reachable_consistent a : reachable g a → consistent g a.
Proof.
  induction 1 as [|a fuel cell count a' _ IH Hobs Hrun].
  - apply consistent_init.
  - by eapply consistent_add_knowledge.
Qed.

End SoundTermination.

(** ** Program points *)

(** The last point of each traced operation is the state the operation
    returns. *)
Lemma mark_points_last smark cell a' :
  last (mark_points smark cell a')
  = Some (set_knowledge (smark cell <$> knowledge a') a').
Proof.
  unfold mark_points. rewrite seq_S, fmap_app. cbn [fmap list_fmap].
  rewrite last_snoc. cbn [Nat.add].
  by rewrite firstn_all, drop_all, app_nil_r.
Qed.

Lemma mark_safe_points_last cell a :
  last (mark_safe_points cell a) = Some (mark_safe cell a).
Proof. unfold mark_safe_points. by rewrite mark_points_last. Qed.

Lemma mark_mine_points_last cell a :
  last (mark_mine_points cell a) = Some (mark_mine cell a).
Proof. unfold mark_mine_points. by rewrite mark_points_last. Qed.

Lemma mark_all_points_last mark points xs a :
  (∀ c a, last (points c a) = Some (mark c a)) →
  last (a :: mark_all_points mark points xs a) = Some (mark_all mark xs a).
Proof.
  intros Hlast. revert a. induction xs as [|x xs IH]; intros a; [done|].
  simpl. rewrite app_comm_cons, last_app.
  destruct (last (mark_all_points mark points xs (mark x a))) as [y|] eqn:Hy.
  - rewrite <- (IH (mark x a)), last_cons, Hy. done.
  - rewrite <- (IH (mark x a)), (last_cons (mark x a)), Hy.
    rewrite last_cons, Hlast. done.
Qed.

Lemma resolve_loop_points_last fuel K i j K' :
  resolve_loop fuel K i j = Some K' →
  last (K :: resolve_loop_points fuel K i j) = Some K'.
Proof.
  revert K i j. induction fuel as [|fuel IH]; intros K i j; simpl; [done|].
  destruct (K !! i) as [s1|]; [|by intros [= <-]].
  destruct (K !! j) as [s2|]; [|by apply IH].
  intros Hrun. rewrite last_cons_cons. by apply IH.
Qed.

(** Every point inside a call keeps the knowledge true of the game. *)
Section SoundPoints.
Context (g : Minesweeper.t).
Local Abbreviation sound_at := (λ p : MinesweeperAI.t, Forall (sound g) (knowledge p)).

Lemma sound_mark_points smark cell a' :
  (∀ s, sound g s → sound g (smark cell s)) →
  Forall (sound g) (knowledge a') →
  Forall sound_at (mark_points smark cell a').
Proof.
  intros Hmark HK. unfold mark_points. apply Forall_fmap, Forall_forall.
  intros k _. simpl. apply Forall_app. split.
  - apply Forall_fmap. eapply Forall_impl; [by apply Forall_take|done].
  - by apply Forall_drop.
Qed.

Lemma sound_mark_safe_points cell a :
  truly_safe g cell → Forall (sound g) (knowledge a) →
  Forall sound_at (mark_safe_points cell a).
Proof.
  intros [Hc _] Ha. apply sound_mark_points; [|apply Ha].
  intros s. by apply sound_mark_safe.
Qed.

Lemma sound_mark_mine_points cell a :
  truly_mine g cell → Forall (sound g) (knowledge a) →
  Forall sound_at (mark_mine_points cell a).
Proof.
  intros Hc Ha. apply sound_mark_points; [|apply Ha].
  intros s. by apply sound_mark_mine.
Qed.

Lemma sound_mark_all_points (P : Cell → Prop) mark points xs a :
  (∀ c a, P c → consistent g a → consistent g (mark c a)) →
  (∀ c a, P c → consistent g a → Forall sound_at (points c a)) →
  Forall P xs → consistent g a →
  Forall sound_at (mark_all_points mark points xs a).
Proof.
  intros Hmark Hpoints Hxs. revert a.
  induction Hxs as [|x xs Hx _ IH]; intros a Ha; simpl; [done|].
  apply Forall_app. split; [by apply Hpoints|]. by apply IH, Hmark.
Qed.

Lemma sound_update_safes_mines_points a :
  consistent g a → Forall sound_at (update_safes_mines_points a).
Proof.
  intros Ha. unfold update_safes_mines_points.
  assert (Forall (truly_safe g) (elements (found_safes a))) as Hsafes.
  { apply Forall_forall. intros c Hc%elem_of_elements.
    by eapply found_safes_truly_safe. }
  assert (Forall (truly_mine g) (elements (found_mines a))) as Hmines.
  { apply Forall_forall. intros c Hc%elem_of_elements.
    by eapply found_mines_truly_mine. }
  apply Forall_app. split.
  - apply (sound_mark_all_points (truly_safe g)); auto.
    + apply consistent_mark_safe.
    + intros c a' Hc Ha'. apply sound_mark_safe_points; [done|apply Ha'].
  - apply (sound_mark_all_points (truly_mine g)); auto.
    + apply consistent_mark_mine.
    + intros c a' Hc Ha'. apply sound_mark_mine_points; [done|apply Ha'].
    + apply (consistent_mark_all g (truly_safe g)); auto.
      apply consistent_mark_safe.
Qed.

Hypothesis Hgame : wf_game g.

Lemma sound_add_knowledge_points fuel cell count a :
  wf_obs g cell count → consistent g a →
  Forall sound_at (add_knowledge_points fuel cell count a).
Proof.
  intros Hobs Ha. unfold add_knowledge_points.
  pose proof Hobs as (Hin & Hsafe & _).
  assert (truly_safe g cell) as Hcell by (split; [done|by apply elem_of_board]).
  pose proof (consistent_add_observation g Hgame cell count a Hobs Ha) as Ha2.
  pose proof (consistent_update_safes_mines g _ Ha2) as Ha3.
  constructor; [apply Ha|].
  apply Forall_app. split; [apply sound_mark_safe_points; [done|apply Ha]|].
  constructor; [apply Ha2|].
  apply Forall_app. split; [by apply sound_update_safes_mines_points|].
  apply Forall_fmap.
  apply (resolve_loop_points_invariant (Forall (sound g))); [|apply Ha3].
  intros. by apply sound_resolve_pair.
Qed.

End SoundPoints.

(** ** What the operations leave alone *)

Lemma mark_all_safe_fields xs a :
  let a' := mark_all mark_safe xs a in
  height a' = height a ∧ width a' = width a
  ∧ moves_made a' = moves_made a ∧ mines a' = mines a
  ∧ safes a' = list_to_set xs ∪ safes a
  ∧ length (knowledge a') = length (knowledge a).
Proof.
  revert a. unfold mark_all.
  induction xs as [|x xs IH]; intros a; simpl.
  { repeat split; try done. set_solver. }
  destruct (IH (mark_safe x a)) as (-> & -> & -> & -> & -> & ->). simpl.
  rewrite length_fmap. repeat split; try done. set_solver.
Qed.

Lemma mark_all_mine_fields xs a :
  let a' := mark_all mark_mine xs a in
  height a' = height a ∧ width a' = width a
  ∧ moves_made a' = moves_made a ∧ safes a' = safes a
  ∧ mines a' = list_to_set xs ∪ mines a
  ∧ length (knowledge a') = length (knowledge a).
Proof.
  revert a. unfold mark_all.
  induction xs as [|x xs IH]; intros a; simpl.
  { repeat split; try done. set_solver. }
  destruct (IH (mark_mine x a)) as (-> & -> & -> & -> & -> & ->). simpl.
  rewrite length_fmap. repeat split; try done. set_solver.
Qed.

(** [update_safes_mines] adds the cells it found to the global sets and
    changes nothing else outside the sentences. *)
Lemma update_safes_mines_fields a :
  let a' := update_safes_mines a in
  height a' = height a ∧ width a' = width a
  ∧ moves_made a' = moves_made a
  ∧ safes a' = found_safes a ∪ safes a
  ∧ mines a' = found_mines a ∪ mines a
  ∧ length (knowledge a') = length (knowledge a).
Proof.
  unfold update_safes_mines.
  destruct (mark_all_mine_fields (elements (found_mines a))
              (mark_all mark_safe (elements (found_safes a)) a))
    as (-> & -> & -> & -> & -> & ->).
  destruct (mark_all_safe_fields (elements (found_safes a)) a)
    as (-> & -> & -> & -> & -> & ->).
  by rewrite !list_to_set_elements_L.
Qed.

(** [add_new_sentences] only touches the list of sentences. *)
Lemma add_new_sentences_fields fuel a a' :
  add_new_sentences fuel a = Some a' →
  height a' = height a ∧ width a' = width a
  ∧ moves_made a' = moves_made a ∧ safes a' = safes a ∧ mines a' = mines a
  ∧ knowledge a `prefix_of` knowledge a'.
Proof.
  unfold add_new_sentences.
  destruct (resolve_loop fuel (knowledge a) 0 0) as [K'|] eqn:Hrun; [|done].
  intros [= <-]. simpl. repeat split; try done.
  by eapply resolve_loop_prefix.
Qed.

Lemma add_observation_fields cell count a :
  let a' := add_observation cell count a in
  height a' = height a ∧ width a' = width a
  ∧ moves_made a' = {[cell]} ∪ moves_made a
  ∧ safes a' = {[cell]} ∪ safes a
  ∧ mines a' = mines a.
Proof.
  unfold add_observation.
  destruct (get_neighbours _ cell count) as [nb c]. by simpl.
Qed.

(** The global sets after a call of [add_knowledge]. *)
Lemma add_knowledge_fields fuel cell count a a' :
  add_knowledge fuel cell count a = Some a' →
  height a' = height a ∧ width a' = width a
  ∧ moves_made a' = {[cell]} ∪ moves_made a
  ∧ safes a' = found_safes (add_observation cell count a) ∪ ({[cell]} ∪ safes a)
  ∧ mines a' = found_mines (add_observation cell count a) ∪ mines a.
Proof.
  unfold add_knowledge, saturate. intros Hrun.
  apply add_new_sentences_fields in Hrun as (-> & -> & -> & -> & -> & _).
  destruct (update_safes_mines_fields (add_observation cell count a))
    as (-> & -> & -> & -> & -> & _).
  destruct (add_observation_fields cell count a) as (-> & -> & -> & -> & ->).
  done.
Qed.

(** ** Replayed observations reach the states they compute *)

Lemma replay_snoc fuel obs o a :
  replay fuel (obs ++ [o]) a
  = replay fuel obs a ≫= add_knowledge fuel o.1 o.2.
Proof. unfold replay. by rewrite foldl_app. Qed.

Lemma replay_called fuel obs h w a :
  replay fuel obs (init h w) = Some a → called h w a.
Proof.
  revert a. induction obs as [|o obs IH] using rev_ind; intros a.
  { intros [= <-]. constructor. }
  rewrite replay_snoc.
  destruct (replay fuel obs (init h w)) as [a0|]; [|done]. simpl.
  intros Hrun. eapply called_step; [by apply IH|exact Hrun].
Qed.

Lemma replay_reachable g fuel obs a :
  Forall (λ o, wf_obs g o.1 o.2) obs →
  replay fuel obs (init (Minesweeper.height g) (Minesweeper.width g)) = Some a →
  reachable g a.
Proof.
  revert a. induction obs as [|o obs IH] using rev_ind; intros a Hobs.
  { intros [= <-]. constructor. }
  apply Forall_app in Hobs as [Hobs Ho]. rewrite Forall_singleton in Ho.
  rewrite replay_snoc.
  destruct (replay fuel obs _) as [a0|]; [|done]. simpl.
  intros Hrun. eapply reachable_step; [by apply IH|exact Ho|exact Hrun].
Qed.

(** Closed goals [wf_obs g cell count] of the example games. *)
Ltac solve_wf_obs :=
  repeat split; simpl; try lia;
  first [rewrite elem_of_singleton; congruence | apply not_elem_of_empty].

Lemma wf_game_a : wf_game game_a.
Proof.
  intros c Hc. simpl in Hc. apply elem_of_singleton in Hc as ->.
  apply elem_of_board. unfold in_bounds. simpl. lia.
Qed.

Lemma wf_obs_a : Forall (λ o, wf_obs game_a o.1 o.2) obs_a.
Proof.
  repeat (constructor; [solve_wf_obs|]). constructor.
Qed.

Lemma reachable_a : reachable game_a (after 40 obs_a 2 3).
Proof. apply (replay_reachable game_a 40 obs_a); [apply wf_obs_a|by vm_compute]. Qed.

(** ** The sentences after [update_safes_mines] *)

Lemma mark_safe_prune c s : Sentence.mark_safe c s = prune {[c]} ∅ s.
Proof.
  unfold Sentence.mark_safe, prune.
  assert (Sentence.cells s ∩ (∅ ∖ {[c]}) = ∅) as -> by set_solver.
  rewrite size_empty, Z.sub_0_r, union_empty_r_L.
  case_decide as Hc; [done|]. destruct s as [X n]. simpl in *. f_equal.
  set_solver.
Qed.

Lemma mark_mine_prune c s : Sentence.mark_mine c s = prune ∅ {[c]} s.
Proof.
  unfold Sentence.mark_mine, prune.
  rewrite union_empty_l_L, difference_empty_L.
  case_decide as Hc.
  - assert (Sentence.cells s ∩ {[c]} = {[c]}) as -> by set_solver.
    by rewrite size_singleton.
  - assert (Sentence.cells s ∩ {[c]} = ∅) as -> by set_solver.
    rewrite size_empty, Z.sub_0_r. destruct s as [X n]. simpl in *. f_equal.
    set_solver.
Qed.

Lemma prune_empty s : prune ∅ ∅ s = s.
Proof.
  destruct s as [X n]. unfold prune. simpl.
  assert (X ∩ (∅ ∖ ∅) = ∅) as -> by set_solver.
  rewrite size_empty. f_equal; [set_solver|lia].
Qed.

Lemma prune_safe_cons x S s :
  prune S ∅ (prune {[x]} ∅ s) = prune ({[x]} ∪ S) ∅ s.
Proof.
  assert (∀ X Y : gset Cell, X ∩ (∅ ∖ Y) = ∅) as Hempty by set_solver.
  unfold prune. simpl. rewrite !Hempty, size_empty.
  f_equal; [set_solver|lia].
Qed.

Lemma prune_mine_cons x M s :
  x ∉ M → prune ∅ M (prune ∅ {[x]} s) = prune ∅ ({[x]} ∪ M) s.
Proof.
  intros Hx. unfold prune. simpl. f_equal.
  { set_solver. }
  assert (Sentence.cells s ∩ (({[x]} ∪ M) ∖ ∅)
          = (Sentence.cells s ∩ ({[x]} ∖ ∅))
            ∪ ((Sentence.cells s ∖ (∅ ∪ {[x]})) ∩ (M ∖ ∅))) as ->.
  { apply set_eq. intros y. destruct (decide (y = x)); set_solver. }
  rewrite (size_union (Sentence.cells s ∩ ({[x]} ∖ ∅))
             ((Sentence.cells s ∖ (∅ ∪ {[x]})) ∩ (M ∖ ∅))) by set_solver.
  lia.
Qed.

Lemma prune_safe_mine S M s : prune ∅ M (prune S ∅ s) = prune S M s.
Proof.
  unfold prune. simpl.
  assert (Sentence.cells s ∩ (∅ ∖ S) = ∅) as -> by set_solver.
  assert ((Sentence.cells s ∖ (S ∪ ∅)) ∩ (M ∖ ∅)
          = Sentence.cells s ∩ (M ∖ S)) as -> by set_solver.
  rewrite size_empty. f_equal; [set_solver|lia].
Qed.

Lemma knowledge_mark_all_safe xs a :
  knowledge (mark_all mark_safe xs a)
  = prune (list_to_set xs) ∅ <$> knowledge a.
Proof.
  revert a. unfold mark_all. induction xs as [|x xs IH]; intros a; simpl.
  { rewrite <- (list_fmap_id (knowledge a)) at 1.
    apply list_fmap_ext. intros _ s _. by rewrite prune_empty. }
  rewrite IH. simpl. rewrite <- list_fmap_compose.
  apply list_fmap_ext. intros _ s _. simpl.
  by rewrite mark_safe_prune, prune_safe_cons.
Qed.

Lemma knowledge_mark_all_mine xs a :
  NoDup xs →
  knowledge (mark_all mark_mine xs a)
  = prune ∅ (list_to_set xs) <$> knowledge a.
Proof.
  intros Hnd. revert a. unfold mark_all.
  induction Hnd as [|x xs Hx _ IH]; intros a; simpl.
  { rewrite <- (list_fmap_id (knowledge a)) at 1.
    apply list_fmap_ext. intros _ s _. by rewrite prune_empty. }
  rewrite IH. simpl. rewrite <- list_fmap_compose.
  apply list_fmap_ext. intros _ s _. simpl.
  rewrite mark_mine_prune, prune_mine_cons; [done|].
  by rewrite elem_of_list_to_set.
Qed.

Lemma knowledge_update_safes_mines a :
  knowledge (update_safes_mines a)
  = prune (found_safes a) (found_mines a) <$> knowledge a.
Proof.
  unfold update_safes_mines.
  rewrite knowledge_mark_all_mine by apply NoDup_elements.
  rewrite knowledge_mark_all_safe, <- list_fmap_compose.
  rewrite !list_to_set_elements_L.
  apply list_fmap_ext. intros _ s _. simpl. apply prune_safe_mine.
Qed.

(** * The claims *)

(** C9. Played cells are classified safe: after every call of
    [add_knowledge], whatever its arguments, every cell of [moves_made] is
    in [safes]. *)
Theorem moves_made_subseteq_safes h w a :
  called h w a → moves_made a ⊆ safes a.
Proof.
  induction 1 as [|a fuel cell count a' _ IH Hrun]; [done|].
  apply add_knowledge_fields in Hrun as (_ & _ & -> & -> & _). set_solver.
Qed.

Lemma moves_made_subseteq_safes_witness :
  called 2 3 (after 40 obs_a 2 3)
  ∧ moves_made (after 40 obs_a 2 3) ⊆ safes (after 40 obs_a 2 3).
Proof.
  assert (called 2 3 (after 40 obs_a 2 3)) as H
    by (apply (replay_called 40 obs_a); by vm_compute).
  split; [exact H|]. exact (moves_made_subseteq_safes 2 3 _ H).
Defined.

(** C8. Monotonicity of knowledge: across a call of [add_knowledge] no cell
    leaves [safes] or [mines], so [|safes| + |mines|] does not decrease. *)
Theorem safes_mines_monotone fuel cell count a a' :
  add_knowledge fuel cell count a = Some a' →
  safes a ⊆ safes a' ∧ mines a ⊆ mines a'
  ∧ (size (safes a) + size (mines a) ≤ size (safes a') + size (mines a'))%nat.
Proof.
  intros Hrun.
  apply add_knowledge_fields in Hrun as (_ & _ & _ & Hs & Hm).
  assert (safes a ⊆ safes a') as Hsub1 by (rewrite Hs; set_solver).
  assert (mines a ⊆ mines a') as Hsub2 by (rewrite Hm; set_solver).
  split; [done|]. split; [done|].
  apply subseteq_size in Hsub1, Hsub2. lia.
Qed.

Lemma safes_mines_monotone_witness :
  add_knowledge 40 (0, 1) 1 (after 40 obs_a1 2 3)
  = Some (after 40 obs_a 2 3)
  ∧ (size (safes (after 40 obs_a1 2 3))
     + size (mines (after 40 obs_a1 2 3))
     ≤ size (safes (after 40 obs_a 2 3))
       + size (mines (after 40 obs_a 2 3)))%nat.
Proof.
  assert (add_knowledge 40 (0, 1) 1 (after 40 obs_a1 2 3)
          = Some (after 40 obs_a 2 3)) as H by (by vm_compute).
  split; [exact H|].
  exact (proj2 (proj2 (safes_mines_monotone _ _ _ _ _ H))).
Defined.

(** C4. Disjointness of classifications: after every call with a
    well-formed observation of a game, [safes] and [mines] have no cell in
    common. *)
Theorem safes_mines_disjoint g a :
  wf_game g → reachable g a → safes a ∩ mines a = ∅.
Proof.
  intros Hgame Ha. apply (reachable_consistent g Hgame) in Ha.
  destruct Ha as [_ _ Hs _ Hm _ _]. set_solver.
Qed.

Lemma safes_mines_disjoint_witness :
  wf_game game_a ∧ reachable game_a (after 40 obs_a 2 3)
  ∧ safes (after 40 obs_a 2 3) ∩ mines (after 40 obs_a 2 3) = ∅.
Proof.
  split; [exact wf_game_a|]. split; [exact reachable_a|].
  exact (safes_mines_disjoint game_a _ wf_game_a reachable_a).
Defined.

(** C3. Sentence count invariant: in every state reached by well-formed
    observations, and at every point inside a further call with a
    well-formed observation (after each [mark_safe], each [mark_mine], each
    sentence appended by [add_new_sentences]), every sentence of the
    knowledge base has [0 <= count <= |cells|]. *)
Theorem count_in_range_at_every_point g a :
  wf_game g → reachable g a →
  Forall count_in_range (knowledge a)
  ∧ ∀ fuel cell count, wf_obs g cell count →
      Forall (λ p, Forall count_in_range (knowledge p))
             (add_knowledge_points fuel cell count a).
Proof.
  intros Hgame Ha. apply (reachable_consistent g Hgame) in Ha.
  split.
  - eapply Forall_impl; [apply Ha|]. apply sound_count_in_range.
  - intros fuel cell count Hobs.
    eapply Forall_impl;
      [by apply (sound_add_knowledge_points g Hgame fuel cell count a)|].
    intros p Hp. eapply Forall_impl; [exact Hp|]. apply sound_count_in_range.
Qed.

Lemma count_in_range_at_every_point_witness :
  wf_game game_a ∧ reachable game_a (after 40 obs_a 2 3)
  ∧ Forall count_in_range (knowledge (after 40 obs_a 2 3)).
Proof.
  split; [exact wf_game_a|]. split; [exact reachable_a|].
  exact (proj1 (count_in_range_at_every_point game_a _ wf_game_a reachable_a)).
Defined.

(** C5, as stated, fails: after the observation [((1, 1), 0)] on a fresh
    3x3 agent the knowledge base is not empty. *)
Lemma zero_observation_keeps_a_sentence :
  ∃ a', add_knowledge 3 (1, 1) 0 (init 3 3) = Some a' ∧ knowledge a' ≠ [].
Proof. eexists. split; [by vm_compute|]. by vm_compute. Qed.

(** C5, amended. On a fresh 3x3 agent the call [add_knowledge((1, 1), 0)]
    puts all eight neighbours (and the cell itself) in [safes], finds no
    mine, and leaves exactly one sentence, with no cells and count 0:
    sentences are never removed from the knowledge base. *)
Theorem zero_observation_3x3 :
  ∃ a', add_knowledge 3 (1, 1) 0 (init 3 3) = Some a'
    ∧ Forall (λ c, c ∈ safes a')
        [(0, 0); (0, 1); (0, 2); (1, 0); (1, 2); (2, 0); (2, 1); (2, 2)]
    ∧ safes a' = board 3 3
    ∧ mines a' = ∅
    ∧ knowledge a' = [Sentence.mk ∅ 0].
Proof.
  eexists. split; [by vm_compute|].
  assert (safes (after 3 [((1, 1), 0)] 3 3) = board 3 3) as Hs by (by vm_compute).
  change (safes _) with (safes (after 3 [((1, 1), 0)] 3 3)).
  split; [|split; [exact Hs|split; by vm_compute]].
  rewrite Hs. repeat constructor; apply elem_of_board; unfold in_bounds; simpl; lia.
Qed.

(** Equal cell sets with different counts: the inner body of
    [add_new_sentences] takes such a pair in either order as a subset pair.
    It leaves the list with the difference sentence of each order in it
    (appended unless an equal sentence is there already); both have no
    cells and a nonzero count, and one count is negative. *)
Lemma resolve_pair_equal_cells K s1 s2 :
  Sentence.cells s1 = Sentence.cells s2 →
  Sentence.count s1 ≠ Sentence.count s2 →
  resolve_pair K s1 s2
    = (if decide (resolve s1 s2 ∈ K) then K else K ++ [resolve s1 s2])
  ∧ resolve_pair K s2 s1
    = (if decide (resolve s2 s1 ∈ K) then K else K ++ [resolve s2 s1])
  ∧ resolve s1 s2 ∈ resolve_pair K s1 s2
  ∧ resolve s2 s1 ∈ resolve_pair K s2 s1
  ∧ Sentence.cells (resolve s1 s2) = ∅ ∧ Sentence.cells (resolve s2 s1) = ∅
  ∧ Sentence.count (resolve s1 s2) ≠ 0 ∧ Sentence.count (resolve s2 s1) ≠ 0
  ∧ (Sentence.count (resolve s1 s2) < 0 ∨ Sentence.count (resolve s2 s1) < 0).
Proof.
  intros Hcells Hcount.
  assert (s1 ≠ s2) as Hne by congruence.
  assert (s2 ≠ s1) as Hne' by congruence.
  assert (Sentence.cells s1 ⊆ Sentence.cells s2) as H12 by (by rewrite Hcells).
  assert (Sentence.cells s2 ⊆ Sentence.cells s1) as H21 by (by rewrite Hcells).
  split; [unfold resolve_pair; by rewrite decide_False, decide_True|].
  split; [unfold resolve_pair; by rewrite decide_False, decide_True|].
  split; [by apply resolve_pair_elem|].
  split; [by apply resolve_pair_elem|].
  simpl. rewrite Hcells.
  split; [set_solver|]. split; [set_solver|]. lia.
Qed.

(** ** A second run of the inference passes *)

Lemma set_knowledge_id a : set_knowledge (knowledge a) a = a.
Proof. by destruct a. Qed.

Lemma resolved_resolve_pair K s1 s2 :
  resolved K → s1 ∈ K → s2 ∈ K → resolve_pair K s1 s2 = K.
Proof.
  intros HK H1 H2.
  destruct (resolve_pair_cases K s1 s2) as [->|(_ & Hne & Hsub & Hnew)]; [done|].
  destruct Hnew. by apply HK.
Qed.

Lemma resolved_resolve_loop K i j :
  resolved K → ∃ fuel, resolve_loop fuel K i j = Some K.
Proof.
  intros HK.
  destruct (resolve_loop_terminates (λ K', K' = K) (λ _, 0%nat)) with K i j
    as (fuel & K' & Hrun & ->); [|done|by exists fuel].
  intros K' s1 s2 -> H1 H2. rewrite resolved_resolve_pair by done. auto.
Qed.



(** C1, as stated, fails: the state reached by the two observations
    [obs_a] of [game_a] holds the derived sentence [{(0,2), (1,2)} = 0]; a
    second run of the two passes moves these cells to [safes]. *)
Lemma second_saturation_changes_safes :
  reachable game_a (after 40 obs_a 2 3)
  ∧ ∃ a', saturate 40 (after 40 obs_a 2 3) = Some a'
      ∧ ((0, 2) ∉ safes (after 40 obs_a 2 3)) ∧ (0, 2) ∈ safes a'.
Proof.
  split; [exact reachable_a|]. eexists. split; [by vm_compute|].
  split; apply (bool_decide_unpack _); by vm_compute.
Qed.

(** One run of the two passes leaves a quiescent state as it is. *)
Lemma saturate_quiescent a :
  quiescent a → ∃ fuel, saturate fuel a = Some a.
Proof.
  intros (Hs & Hm & HK).
  assert (update_safes_mines a = a) as Hupd.
  { unfold update_safes_mines. by rewrite Hs, Hm, elements_empty. }
  destruct (resolved_resolve_loop (knowledge a) 0 0 HK) as [fuel Hrun].
  exists fuel. unfold saturate, add_new_sentences.
  rewrite Hupd, Hrun. simpl. by rewrite set_knowledge_id.
Qed.

(** A sentence that [update_safes_mines] leaves as it is has none of the
    cells the pass found. *)
Lemma prune_fixed S M s : prune S M s = s → Sentence.cells s ## S ∪ M.
Proof.
  intros Heq. apply (f_equal Sentence.cells) in Heq. simpl in Heq.
  intros c Hc HSM. rewrite <- Heq in Hc. set_solver.
Qed.

Lemma found_safes_cells a c :
  c ∈ found_safes a → ∃ s, s ∈ knowledge a ∧ c ∈ Sentence.cells s.
Proof.
  unfold found_safes. intros (X & HX & Hc)%elem_of_union_list.
  apply list_elem_of_fmap in HX as (s & -> & Hs). exists s. split; [done|].
  unfold Sentence.known_safes in Hc. case_decide; [done|].
  by apply elem_of_empty in Hc.
Qed.

Lemma found_mines_cells a c :
  c ∈ found_mines a → ∃ s, s ∈ knowledge a ∧ c ∈ Sentence.cells s.
Proof.
  unfold found_mines. intros (X & HX & Hc)%elem_of_union_list.
  apply list_elem_of_fmap in HX as (s & -> & Hs). exists s. split; [done|].
  unfold Sentence.known_mines in Hc. case_decide; [done|].
  by apply elem_of_empty in Hc.
Qed.

(** A run of the two passes that changes nothing started from a quiescent
    state. *)
Lemma saturate_unchanged_quiescent fuel a :
  saturate fuel a = Some a → quiescent a.
Proof.
  unfold saturate, add_new_sentences. intros Hrun.
  destruct (resolve_loop fuel (knowledge (update_safes_mines a)) 0 0)
    as [K'|] eqn:Hloop; [|done].
  simpl in Hrun. injection Hrun as Hrun.
  assert (knowledge a = K') as HK' by (by rewrite <- Hrun at 1).
  pose proof (resolve_loop_prefix _ _ _ _ _ Hloop) as [new Hnew].
  rewrite knowledge_update_safes_mines in Hnew, Hloop.
  assert (new = []) as ->.
  { apply (f_equal length) in Hnew.
    rewrite <- HK', length_app, length_fmap in Hnew.
    destruct new; [done|simpl in Hnew; lia]. }
  rewrite app_nil_r, <- HK' in Hnew.
  assert (∀ s, s ∈ knowledge a →
            Sentence.cells s ## found_safes a ∪ found_mines a) as Hfix.
  { intros s [k Hk]%list_elem_of_lookup. apply prune_fixed.
    apply (f_equal (λ K, K !! k)) in Hnew.
    rewrite list_lookup_fmap, Hk in Hnew. simpl in Hnew. congruence. }
  assert (found_safes a = ∅) as Hs.
  { apply set_eq. intros c. split; [|intros []%elem_of_empty].
    intros Hc. destruct (found_safes_cells a c Hc) as (s & Hin & Hcs).
    destruct (Hfix s Hin c Hcs). set_solver. }
  assert (found_mines a = ∅) as Hm.
  { apply set_eq. intros c. split; [|intros []%elem_of_empty].
    intros Hc. destruct (found_mines_cells a c Hc) as (s & Hin & Hcs).
    destruct (Hfix s Hin c Hcs). set_solver. }
  split; [done|]. split; [done|].
  rewrite <- Hnew, <- HK' in Hloop.
  intros s1 s2 [p1 Hp1]%list_elem_of_lookup [p2 Hp2]%list_elem_of_lookup
    Hne Hsub.
  eapply (resolve_loop_visits fuel (knowledge a) 0 0 (knowledge a) p1 p2);
    [done..|lia|done|done].
Qed.

(** C1, amended. The two passes that end [add_knowledge] (one run of
    [update_safes_mines], then one run of [add_new_sentences]) leave a
    state unchanged exactly when it is quiescent: no sentence has a known
    safe or a known mine, and the sentence of every subset pair is already
    present. A state returned by [add_knowledge] need not be quiescent. *)
Theorem saturate_unchanged_iff_quiescent a :
  (∃ fuel, saturate fuel a = Some a) ↔ quiescent a.
Proof.
  split.
  - intros [fuel Hrun]. by apply (saturate_unchanged_quiescent fuel).
  - apply saturate_quiescent.
Qed.

Lemma wf_game_g : wf_game game_g.
Proof.
  intros c Hc. simpl in Hc. apply elem_of_singleton in Hc as ->.
  apply elem_of_board. unfold in_bounds. simpl. lia.
Qed.

Lemma reachable_g : reachable game_g (after 40 obs_g 3 3).
Proof.
  apply (replay_reachable game_g 40 obs_g); [|by vm_compute].
  repeat (constructor; [solve_wf_obs|]). constructor.
Qed.

(** The state reached by [obs_g] holds [{} = 0] and a sentence of five
    cells: a subset pair whose difference sentence is the second sentence
    itself. *)
Lemma saturate_unchanged_iff_quiescent_witness :
  reachable game_g (after 40 obs_g 3 3)
  ∧ knowledge (after 40 obs_g 3 3)
    = [sentence [] 0; sentence [(0, 2); (1, 2); (2, 0); (2, 1); (2, 2)] 1]
  ∧ quiescent (after 40 obs_g 3 3)
  ∧ ∃ fuel, saturate fuel (after 40 obs_g 3 3) = Some (after 40 obs_g 3 3).
Proof.
  assert (knowledge (after 40 obs_g 3 3)
          = [sentence [] 0;
             sentence [(0, 2); (1, 2); (2, 0); (2, 1); (2, 2)] 1]) as HK
    by (by vm_compute).
  assert (quiescent (after 40 obs_g 3 3)) as H.
  { split; [by vm_compute|]. split; [by vm_compute|]. rewrite HK.
    intros s1 s2 H1 H2 Hne Hsub.
    apply elem_of_cons in H1 as [->|H1];
      [|apply list_elem_of_singleton in H1 as ->];
      (apply elem_of_cons in H2 as [->|H2];
       [|apply list_elem_of_singleton in H2 as ->]).
    - exfalso. apply Hne. reflexivity.
    - apply (bool_decide_unpack _). by vm_compute.
    - exfalso. revert Hsub. apply (bool_decide_unpack _). by vm_compute.
    - exfalso. apply Hne. reflexivity. }
  split; [exact reachable_g|]. split; [exact HK|]. split; [exact H|].
  exact (proj2 (saturate_unchanged_iff_quiescent _) H).
Defined.

(** ** From a derived sentence to a safe cell *)

Lemma add_observation_knowledge cell count a :
  ∃ s, knowledge (add_observation cell count a)
       = (Sentence.mark_safe cell <$> knowledge a) ++ [s].
Proof.
  unfold add_observation.
  destruct (get_neighbours _ cell count) as [nb c]. simpl. by eexists.
Qed.







(** ** Termination of [add_new_sentences] *)

(** With a sentence without cells and with a positive count at the outer
    position, every sentence of least count that the inner iterator has not
    passed yields a new sentence of smaller count, appended behind it: the
    inner loop never reaches the end of the list. *)
Lemma resolve_loop_diverges fuel K i j p s1 e :
  K !! i = Some s1 → Sentence.cells s1 = ∅ → 0 < Sentence.count s1 →
  K !! p = Some e → (j ≤ p)%nat → Sentence.count e < Sentence.count s1 →
  Forall (λ s, Sentence.count e ≤ Sentence.count s) K →
  resolve_loop fuel K i j = None.
Proof.
  intros Hi Hcells Hpos. revert K j p e Hi.
  induction fuel as [|fuel IH]; intros K j p e Hi Hp Hj He Hmin; [done|].
  simpl. rewrite Hi.
  pose proof (lookup_lt_Some _ _ _ Hp) as Hplt.
  destruct (K !! j) as [s2|] eqn:Hs2; [|apply lookup_ge_None in Hs2; lia].
  assert (∀ n, (resolve_pair K s1 s2 = K ∨ resolve_pair K s1 s2 = K ++ [n]) →
               resolve_pair K s1 s2 !! i = Some s1) as Hi'.
  { intros n [->| ->]; [done|]. by apply lookup_app_l_Some. }
  destruct (decide (j = p)) as [->|Hjp].
  - (* the inner iterator is at the sentence of least count *)
    rewrite Hp in Hs2. injection Hs2 as <-.
    assert (resolve s1 e ∉ K) as Hnew.
    { intros Hin. rewrite Forall_forall in Hmin. apply Hmin in Hin.
      simpl in Hin. lia. }
    assert (resolve_pair K s1 e = K ++ [resolve s1 e]) as Heq.
    { unfold resolve_pair. rewrite decide_False by (intros ->; lia).
      rewrite decide_True by (rewrite Hcells; apply empty_subseteq).
      simpl. by rewrite decide_False. }
    apply (IH _ _ (length K) (resolve s1 e)).
    + apply (Hi' (resolve s1 e)). by right.
    + rewrite Heq. apply list_lookup_middle. done.
    + lia.
    + simpl. lia.
    + rewrite Heq. apply Forall_app. split.
      * eapply Forall_impl; [exact Hmin|]. simpl. intros; lia.
      * apply Forall_singleton. done.
  - destruct (resolve_pair_cases K s1 s2) as [Heq|(Heq & _ & _ & _)].
    + rewrite Heq. apply (IH _ _ p e); (done || lia).
    + destruct (decide (Sentence.count (resolve s1 s2) < Sentence.count e))
        as [Hlt|Hge]; simpl in *.
      * apply (IH _ _ (length K) (resolve s1 s2)).
        -- apply (Hi' (resolve s1 s2)). by right.
        -- rewrite Heq. apply list_lookup_middle. done.
        -- lia.
        -- simpl. lia.
        -- rewrite Heq. apply Forall_app. split.
           ++ eapply Forall_impl; [exact Hmin|]. simpl. intros; lia.
           ++ apply Forall_singleton. done.
      * apply (IH _ _ p e).
        -- apply (Hi' (resolve s1 s2)). by right.
        -- rewrite Heq. by apply lookup_app_l_Some.
        -- lia.
        -- done.
        -- rewrite Heq. apply Forall_app. split; [done|].
           apply Forall_singleton. simpl. lia.
Qed.

(** C6, as stated, fails: an agent for a board of one cell that was told
    [((0, 0), 1)] holds the sentence [{} = 1]. The next call, with the
    well-formed observation [((0, 0), 0)] of the board without mines, appends
    [{} = 0]; [add_new_sentences] then appends [{} = -1], [{} = -2], ... and
    does not return, whatever the fuel. *)
Lemma saturation_diverges_after_false_count :
  called 1 1 (after 40 obs_c 1 1)
  ∧ wf_game game_c ∧ wf_obs game_c (0, 0) 0
  ∧ ∀ fuel, add_knowledge fuel (0, 0) 0 (after 40 obs_c 1 1) = None.
Proof.
  split; [apply (replay_called 40 obs_c); by vm_compute|].
  split; [intros c Hc; by apply not_elem_of_empty in Hc|].
  split; [solve_wf_obs|].
  intros fuel. unfold add_knowledge, saturate, add_new_sentences.
  assert (knowledge (update_safes_mines
                       (add_observation (0, 0) 0 (after 40 obs_c 1 1)))
          = [Sentence.mk ∅ 1; Sentence.mk ∅ 0]) as -> by (by vm_compute).
  rewrite (resolve_loop_diverges fuel _ 0 0 1 (Sentence.mk ∅ 1) (Sentence.mk ∅ 0));
    first [done | simpl; lia | repeat constructor; simpl; lia].
Qed.

(** C6, amended. In a state reached by well-formed observations of a game,
    a call of [add_knowledge] with a well-formed observation returns: some
    amount of fuel is enough, and every larger amount gives the same
    state. Every sentence is then true of the game, so a new sentence uses
    a set of board cells that no sentence has yet, and these sets are
    finitely many. *)
Theorem add_knowledge_terminates g a cell count :
  wf_game g → reachable g a → wf_obs g cell count →
  ∃ fuel a', ∀ fuel', (fuel ≤ fuel')%nat →
    add_knowledge fuel' cell count a = Some a'.
Proof.
  intros Hgame Ha Hobs. apply (reachable_consistent g Hgame) in Ha.
  pose proof (consistent_update_safes_mines g _
                (consistent_add_observation g Hgame cell count a Hobs Ha)) as Hb.
  destruct (sound_resolve_loop_terminates g _ 0 0 (consistent_knowledge _ _ Hb))
    as (fuel & K' & Hrun & _).
  exists fuel. eexists. intros fuel' Hle.
  unfold add_knowledge, saturate, add_new_sentences.
  rewrite (resolve_loop_fuel_mono _ _ _ _ _ _ Hrun Hle). done.
Qed.

Lemma add_knowledge_terminates_witness :
  wf_game game_a ∧ reachable game_a (after 40 obs_a 2 3)
  ∧ wf_obs game_a (0, 2) 0
  ∧ ∃ fuel a', ∀ fuel', (fuel ≤ fuel')%nat →
      add_knowledge fuel' (0, 2) 0 (after 40 obs_a 2 3) = Some a'.
Proof.
  assert (wf_obs game_a (0, 2) 0) as Hobs by solve_wf_obs.
  split; [exact wf_game_a|]. split; [exact reachable_a|]. split; [exact Hobs|].
  exact (add_knowledge_terminates game_a _ (0, 2) 0 wf_game_a reachable_a Hobs).
Defined.

(** ** [make_random_move] *)

Lemma length_cells_row (i : Z) (r : list Z) :
  length (r ≫= λ j, [(i, j)]) = length r.
Proof. induction r as [|j r IH]; csimpl; [done|]. by rewrite IH. Qed.

Lemma length_board_row (w : Z) (l : list Z) :
  length (l ≫= λ i, seqZ 0 w ≫= λ j, [(i, j)]) = (length l * Z.to_nat w)%nat.
Proof.
  induction l as [|i l IH]; csimpl; [done|].
  rewrite length_app, IH, length_cells_row, length_seqZ. done.
Qed.

Lemma NoDup_board_cells h w : NoDup (board_cells h w).
Proof.
  unfold board_cells. apply NoDup_bind; [| |apply NoDup_seqZ].
  - intros i1 i2 c _ _ H1 H2.
    apply list_elem_of_bind in H1 as (j1 & H1 & _).
    apply list_elem_of_bind in H2 as (j2 & H2 & _).
    apply list_elem_of_singleton in H1, H2. congruence.
  - intros i _. apply NoDup_bind; [| |apply NoDup_seqZ].
    + intros j1 j2 c _ _ H1 H2.
      apply list_elem_of_singleton in H1, H2. congruence.
    + intros j _. apply NoDup_singleton.
Qed.

(** The board has [height * width] cells. *)
Lemma size_board h w :
  0 ≤ h → 0 ≤ w → Z.of_nat (size (board h w)) = h * w.
Proof.
  intros Hh Hw. unfold board.
  rewrite size_list_to_set by apply NoDup_board_cells.
  unfold board_cells. rewrite length_board_row, length_seqZ. lia.
Qed.

Lemma draw_loop_move draws a c :
  draw_loop draws a = Move c →
  c ∈ draws ∧ (c ∉ moves_made a) ∧ (c ∉ mines a).
Proof.
  induction draws as [|d draws IH]; [done|]. simpl.
  case_decide as Hd.
  - intros [= <-]. split; [by left|done].
  - intros Hrun. destruct (IH Hrun) as [Hin Hc]. split; [by right|done].
Qed.

Lemma draw_loop_finds draws a c :
  c ∈ draws → (c ∉ moves_made a) → (c ∉ mines a) →
  ∃ c', draw_loop draws a = Move c'.
Proof.
  intros Hin Hm Hn. induction draws as [|d draws IH]; [by apply elem_of_nil in Hin|].
  simpl. case_decide as Hd; [by eexists|].
  apply elem_of_cons in Hin as [->|Hin]; [|by apply IH].
  destruct Hd. done.
Qed.

Lemma draw_loop_not_none draws a : draw_loop draws a ≠ NoMove.
Proof. induction draws as [|d draws IH]; [done|]. simpl. by case_decide. Qed.

(** [moves_left] is zero exactly when the board is covered, for disjoint
    sets of board cells. *)
Lemma moves_left_zero a :
  0 ≤ height a → 0 ≤ width a →
  moves_made a ⊆ board (height a) (width a) →
  mines a ⊆ board (height a) (width a) →
  moves_made a ## mines a →
  moves_left a = 0 ↔ board (height a) (width a) ⊆ moves_made a ∪ mines a.
Proof.
  intros Hh Hw Hmoves Hmines Hdisj. unfold moves_left, board_size.
  rewrite <- (size_board _ _ Hh Hw).
  assert (moves_made a ∪ mines a ⊆ board (height a) (width a)) as Hsub
    by (by apply union_least).
  pose proof (size_union _ _ Hdisj) as Hsize.
  split.
  - intros Hzero.
    assert (moves_made a ∪ mines a = board (height a) (width a)) as ->; [|done].
    apply set_subseteq_size_eq; [done|lia].
  - intros Hcov. apply subseteq_size in Hcov, Hsub. lia.
Qed.

(** The test of [make_random_move] counts, it does not look at the board.
    The two agree as long as no cell is both played and a known mine, as in
    every state reached by well-formed observations; they differ after
    observations that contradict each other. A 1x3 agent told
    [((0, 0), 1)] marks [(0, 1)] a mine; told [((0, 1), 0)] next, it has
    [(0, 1)] both in [moves_made] and in [mines], [moves_left] is
    [3 - 2 - 1 = 0] and [None] is returned with [(0, 2)] neither played nor a
    known mine. *)
Lemma none_with_a_cell_left :
  called 1 3 (after 40 obs_e 1 3)
  ∧ (∀ draws, make_random_move draws (after 40 obs_e 1 3) = NoMove)
  ∧ (0, 2) ∈ board 1 3
  ∧ ((0, 2) ∉ moves_made (after 40 obs_e 1 3) ∪ mines (after 40 obs_e 1 3)).
Proof.
  split; [apply (replay_called 40 obs_e); by vm_compute|].
  split.
  { intros draws. unfold make_random_move.
    rewrite decide_True; [done|by vm_compute]. }
  split; apply (bool_decide_unpack _); by vm_compute.
Qed.

(** When [moves_made] and [mines] are disjoint sets of cells of the board,
    [make_random_move] returns [None] exactly when the two sets cover the
    board; otherwise an eligible cell of the board exists, and the loop
    returns at the first draw that is neither played nor a known mine. *)
Lemma make_random_move_exhaustion a :
  0 ≤ height a → 0 ≤ width a →
  moves_made a ⊆ board (height a) (width a) →
  mines a ⊆ board (height a) (width a) →
  moves_made a ## mines a →
  (∀ draws, make_random_move draws a = NoMove
            ↔ board (height a) (width a) ⊆ moves_made a ∪ mines a)
  ∧ (∀ draws c, make_random_move draws a = Move c →
                c ∈ draws ∧ (c ∉ moves_made a) ∧ (c ∉ mines a))
  ∧ (¬ board (height a) (width a) ⊆ moves_made a ∪ mines a →
     ∃ c, c ∈ board (height a) (width a)
          ∧ (c ∉ moves_made a) ∧ (c ∉ mines a)
          ∧ ∀ draws, c ∈ draws → ∃ c', make_random_move draws a = Move c').
Proof.
  intros Hh Hw Hmoves Hmines Hdisj.
  pose proof (moves_left_zero a Hh Hw Hmoves Hmines Hdisj) as Hzero.
  split; [|split].
  - intros draws. rewrite <- Hzero. unfold make_random_move.
    case_decide; [done|]. split; [|done].
    intros Hrun. by apply draw_loop_not_none in Hrun.
  - intros draws c. unfold make_random_move. case_decide; [done|].
    apply draw_loop_move.
  - intros Hcov.
    assert (∃ c, c ∈ board (height a) (width a) ∖ (moves_made a ∪ mines a))
      as [c Hc].
    { apply set_choose_L. intros Hempty. apply Hcov. intros x Hx.
      destruct (decide (x ∈ moves_made a ∪ mines a)) as [|Hnot]; [done|].
      assert (x ∈ board (height a) (width a) ∖ (moves_made a ∪ mines a)) as Hin
        by (by apply elem_of_difference).
      rewrite Hempty in Hin. by apply not_elem_of_empty in Hin. }
    apply elem_of_difference in Hc as [Hc Hnot].
    apply not_elem_of_union in Hnot as [Hm Hn].
    exists c. repeat split; try done.
    intros draws Hin. unfold make_random_move.
    rewrite decide_False by (by rewrite Hzero).
    by apply (draw_loop_finds draws a c).
Qed.

Lemma wf_game_d : wf_game game_d.
Proof.
  intros c Hc. simpl in Hc. apply elem_of_singleton in Hc as ->.
  apply elem_of_board. unfold in_bounds. simpl. lia.
Qed.

Lemma reachable_d : reachable game_d (after 40 obs_d 2 2).
Proof.
  apply (replay_reachable game_d 40 obs_d); [|by vm_compute].
  repeat (constructor; [solve_wf_obs|]). constructor.
Qed.

(** C7. In a state reached by well-formed observations of a game,
    [make_random_move] returns [None] if and only if [moves_made] and
    [mines] together cover the whole board; in particular it does on a 2x2
    board with 3 moves made and 1 known mine. Otherwise a cell that is in
    neither set exists on the board, and the function returns the first
    drawn cell that is in neither [moves_made] nor [mines]. *)
Theorem make_random_move_none_iff_covered g a :
  wf_game g → 0 ≤ Minesweeper.height g → 0 ≤ Minesweeper.width g →
  reachable g a →
  (∀ draws, make_random_move draws a = NoMove
            ↔ board (height a) (width a) ⊆ moves_made a ∪ mines a)
  ∧ (height a = 2 → width a = 2 →
     size (moves_made a) = 3%nat → size (mines a) = 1%nat →
     ∀ draws, make_random_move draws a = NoMove)
  ∧ (∀ draws c, make_random_move draws a = Move c →
                c ∈ draws ∧ (c ∉ moves_made a) ∧ (c ∉ mines a))
  ∧ (¬ board (height a) (width a) ⊆ moves_made a ∪ mines a →
     ∃ c, c ∈ board (height a) (width a)
          ∧ (c ∉ moves_made a) ∧ (c ∉ mines a)
          ∧ ∀ draws, c ∈ draws → ∃ c', make_random_move draws a = Move c').
Proof.
  intros Hgame Hh Hw Ha. apply (reachable_consistent g Hgame) in Ha.
  destruct Ha as [Hha Hwa Hs Hsb Hm Hmv _].
  assert (moves_made a ⊆ board (height a) (width a)) as Hmoves
    by (rewrite Hha, Hwa; etrans; done).
  assert (mines a ⊆ board (height a) (width a)) as Hmines
    by (rewrite Hha, Hwa; etrans; done).
  assert (moves_made a ## mines a) as Hdisj.
  { intros c Hc1 Hc2. apply (Hs c); auto. }
  rewrite <- Hha in Hh. rewrite <- Hwa in Hw.
  destruct (make_random_move_exhaustion a Hh Hw Hmoves Hmines Hdisj)
    as (Hnone & Hmove & Hsome).
  split; [exact Hnone|]. split; [|split; [exact Hmove|exact Hsome]].
  intros H2 W2 Hplayed Hflagged draws. unfold make_random_move.
  rewrite decide_True; [done|].
  unfold moves_left, board_size. rewrite H2, W2, Hplayed, Hflagged. lia.
Qed.

Lemma make_random_move_none_iff_covered_witness :
  let a := after 40 obs_d 2 2 in
  reachable game_d a
  ∧ size (moves_made a) = 3%nat ∧ size (mines a) = 1%nat
  ∧ board (height a) (width a) ⊆ moves_made a ∪ mines a
  ∧ ∀ draws, make_random_move draws a = NoMove.
Proof.
  intros a.
  assert (board (height a) (width a) ⊆ moves_made a ∪ mines a) as Hcov
    by (apply (bool_decide_unpack _); by vm_compute).
  assert (0 ≤ Minesweeper.height game_d) as Hh by (simpl; lia).
  assert (0 ≤ Minesweeper.width game_d) as Hw by (simpl; lia).
  split; [exact reachable_d|].
  split; [by vm_compute|]. split; [by vm_compute|]. split; [exact Hcov|].
  intros draws.
  exact (proj2 (proj1 (make_random_move_none_iff_covered game_d a
                         wf_game_d Hh Hw reachable_d) draws) Hcov).
Defined.

(** * Further properties of the code *)

(** ** [make_safe_move] *)

Lemma safe_move_loop_Some l a c :
  safe_move_loop l a = Some c → c ∈ l ∧ (c ∉ moves_made a).
Proof.
  induction l as [|x l IH]; [done|]. simpl. case_decide as Hx.
  - intros [= <-]. split; [by left|done].
  - intros Hrun. destruct (IH Hrun). split; [by right|done].
Qed.

Lemma safe_move_loop_None l a :
  safe_move_loop l a = None ↔ ∀ c, c ∈ l → c ∈ moves_made a.
Proof.
  induction l as [|x l IH]; simpl.
  { split; [|done]. intros _ c Hc. by apply elem_of_nil in Hc. }
  case_decide as Hx.
  - split; [done|]. intros Hall. destruct Hx. apply Hall. by left.
  - rewrite IH. split.
    + intros Hall c [->|Hc]%elem_of_cons; auto.
    + intros Hall c Hc. apply Hall. by right.
Qed.

Lemma make_safe_move_Some a c :
  make_safe_move a = Some c → c ∈ safes a ∧ (c ∉ moves_made a).
Proof.
  unfold make_safe_move. case_decide; [done|].
  intros [Hin Hc]%safe_move_loop_Some. by apply elem_of_elements in Hin.
Qed.

(** X1. [make_safe_move] returns [None] exactly when every cell of [safes] has
    been played, and otherwise a cell of [safes] that has not been played;
    this holds whatever the state of the agent. *)
Theorem make_safe_move_unplayed_safe a :
  (make_safe_move a = None ↔ safes a ⊆ moves_made a)
  ∧ ∀ c, make_safe_move a = Some c → c ∈ safes a ∧ (c ∉ moves_made a).
Proof.
  split; [|apply make_safe_move_Some].
  unfold make_safe_move. case_decide as Hsize.
  - apply size_empty_inv in Hsize. split; [|done]. intros _ c Hc.
    apply Hsize in Hc. by apply elem_of_empty in Hc.
  - rewrite safe_move_loop_None. split.
    + intros Hall c Hc. apply Hall. by apply elem_of_elements.
    + intros Hsub c Hc. apply Hsub. by apply elem_of_elements in Hc.
Qed.

Lemma wf_obs_f : Forall (λ o, wf_obs game_a o.1 o.2) obs_f.
Proof. repeat (constructor; [solve_wf_obs|]). constructor. Qed.

Lemma reachable_f : reachable game_a (after 40 obs_f 2 3).
Proof. apply (replay_reachable game_a 40 obs_f); [apply wf_obs_f|by vm_compute]. Qed.

(** X2. In a state reached by well-formed observations of a game, the cell
    that [make_safe_move] returns is a cell of the board that is not a mine
    of the game and has not been played. *)
Theorem make_safe_move_avoids_mines g a c :
  wf_game g → reachable g a → make_safe_move a = Some c →
  (c ∉ Minesweeper.mines g)
  ∧ in_bounds (Minesweeper.height g) (Minesweeper.width g) c
  ∧ (c ∉ moves_made a).
Proof.
  intros Hgame Ha [Hin Hc]%make_safe_move_Some.
  apply (reachable_consistent g Hgame) in Ha.
  destruct Ha as [_ _ Hs Hb _ _ _].
  split; [|split; [|done]].
  - intros Hmine. by apply (Hs c).
  - apply elem_of_board. by apply Hb.
Qed.

Lemma make_safe_move_avoids_mines_witness :
  make_safe_move (after 40 obs_f 2 3) = Some (1, 2)
  ∧ ((1, 2) ∉ Minesweeper.mines game_a)
  ∧ in_bounds 2 3 (1, 2).
Proof.
  assert (make_safe_move (after 40 obs_f 2 3) = Some (1, 2)) as Hmove
    by (by vm_compute).
  split; [exact Hmove|].
  destruct (make_safe_move_avoids_mines game_a _ (1, 2)
              wf_game_a reachable_f Hmove) as (Hm & Hb & _).
  split; [exact Hm|exact Hb].
Defined.

(** ** The constructor of the game *)

Lemma place_mines_Some n draws M0 M :
  Minesweeper.place_mines n draws M0 = Some M →
  Z.of_nat (size M) = n ∧ M0 ⊆ M ∧ M ⊆ M0 ∪ list_to_set draws.
Proof.
  revert M0. induction draws as [|c draws IH]; intros M0; simpl.
  - case_decide; [|done]. intros [= <-]. set_solver.
  - case_decide as Hn; [intros [= <-]; set_solver|].
    intros Hrun. apply IH in Hrun as (Hsize & Hsub & Hdraws).
    split; [done|]. case_decide; set_solver.
Qed.

(** The loop is not left as long as no set it can reach has [n] cells. *)
Lemma place_mines_None (I : gset Cell → Prop) n draws M :
  (∀ X, I X → Z.of_nat (size X) ≠ n) →
  (∀ X c, I X → c ∈ draws → I ({[c]} ∪ X)) →
  I M → Minesweeper.place_mines n draws M = None.
Proof.
  intros Hsize. revert M. induction draws as [|c draws IH]; intros M Hadd HM.
  - simpl. by rewrite decide_False by by apply Hsize.
  - simpl. rewrite decide_False by by apply Hsize.
    apply IH.
    + intros X d HX Hd. apply Hadd; [done|by right].
    + case_decide; [done|]. apply Hadd; [done|by left].
Qed.

(** X3. When the constructor returns, the game has exactly the number of mines
    asked for, all of them on the board (the draws are cells of the
    board). *)
Theorem init_places_mines_on_board h w n draws g :
  Forall (in_bounds h w) draws →
  Minesweeper.init h w n draws = Some g →
  Minesweeper.height g = h ∧ Minesweeper.width g = w
  ∧ Z.of_nat (size (Minesweeper.mines g)) = n
  ∧ wf_game g.
Proof.
  intros Hdraws. unfold Minesweeper.init.
  destruct (Minesweeper.place_mines n draws ∅) as [M|] eqn:Hrun; [|done].
  intros [= <-]. simpl.
  apply place_mines_Some in Hrun as (Hsize & _ & Hsub).
  repeat split; try done.
  intros c Hc. simpl in *. apply Hsub in Hc.
  rewrite union_empty_l_L, elem_of_list_to_set in Hc.
  rewrite Forall_forall in Hdraws. apply elem_of_board. by apply Hdraws.
Qed.

Lemma init_places_mines_on_board_witness :
  ∃ g, Minesweeper.init 2 2 1 [(1, 1)] = Some g
       ∧ Z.of_nat (size (Minesweeper.mines g)) = 1 ∧ wf_game g.
Proof.
  eexists. split; [by vm_compute|].
  refine (proj2 (proj2
    (init_places_mines_on_board 2 2 1 [(1, 1)] _ _ eq_refl))).
  repeat constructor; simpl; lia.
Defined.

(** X4. On a board with at least one cell (so that every call of
    [random.randrange] returns a draw), the constructor asked for a negative
    number of mines, or for more mines than the board has cells, never
    leaves its loop: no list of draws is long enough. *)
Theorem init_loops_on_impossible_count h w n draws :
  0 < h → 0 < w → n < 0 ∨ h * w < n →
  Forall (in_bounds h w) draws →
  Minesweeper.init h w n draws = None.
Proof.
  intros Hh Hw Hn Hdraws. unfold Minesweeper.init.
  rewrite (place_mines_None (λ X, X ⊆ board h w)); [done| | |done].
  - intros X HX Hsize. apply subseteq_size in HX.
    pose proof (size_board h w ltac:(lia) ltac:(lia)). lia.
  - intros X c HX Hc. rewrite Forall_forall in Hdraws.
    apply union_least; [|done]. apply singleton_subseteq_l.
    apply elem_of_board. by apply Hdraws.
Qed.

Lemma init_loops_on_impossible_count_witness :
  Minesweeper.init 1 2 3 [(0, 0); (0, 1); (0, 0); (0, 1)] = None.
Proof.
  apply init_loops_on_impossible_count; [lia|lia|right; lia|].
  repeat constructor; simpl; lia.
Defined.

(** ** What the loops over the window compute *)

Lemma neighbours_fold a cell l S n :
  foldl (neighbours_step a cell) (S, n) l
  = (list_to_set (filter (unknown_neighbour a cell) l) ∪ S,
     n - Z.of_nat (length (filter (flagged_neighbour a cell) l))).
Proof.
  revert S n. induction l as [|c l IH]; intros S n.
  { simpl. f_equal; [set_solver|lia]. }
  simpl. unfold neighbours_step at 2.
  destruct (decide (c = cell ∨ c ∈ safes a)) as [Hskip|Hskip].
  { rewrite IH, !filter_cons_False; [done|..];
      unfold flagged_neighbour, unknown_neighbour; tauto. }
  destruct (decide (c ∈ mines a)) as [Hmine|Hmine].
  { simpl. rewrite IH, (filter_cons_True (flagged_neighbour a cell)),
      (filter_cons_False (unknown_neighbour a cell));
      [|unfold unknown_neighbour; tauto|unfold flagged_neighbour; tauto].
    f_equal. simpl. lia. }
  destruct (decide (in_bounds (height a) (width a) c)) as [Hin|Hout].
  - simpl. rewrite IH, (filter_cons_False (flagged_neighbour a cell)),
      (filter_cons_True (unknown_neighbour a cell));
      [|unfold unknown_neighbour; tauto|unfold flagged_neighbour; tauto].
    f_equal. set_solver.
  - rewrite IH, !filter_cons_False; [done|..];
      unfold flagged_neighbour, unknown_neighbour; tauto.
Qed.


Lemma nearby_fold g cell l n :
  foldl (Minesweeper.nearby_step g cell) n l
  = n + Z.of_nat (length (filter (mined_neighbour g cell) l)).
Proof.
  revert n. induction l as [|c l IH]; intros n; [simpl; lia|].
  simpl. rewrite IH. unfold Minesweeper.nearby_step, Minesweeper.is_mine.
  destruct (decide (mined_neighbour g cell c)) as [Hc|Hc].
  - rewrite filter_cons_True by done. destruct Hc as (Hne & Hin & Hmine).
    rewrite decide_False, decide_True, bool_decide_true by done. simpl. lia.
  - rewrite filter_cons_False by done. unfold mined_neighbour in Hc.
    repeat case_decide; try lia; case_bool_decide; (tauto || lia).
Qed.

Lemma length_filter_window P `{∀ c : Cell, Decision (P c)} (cell : Cell) :
  ¬ P cell → (length (filter P (window cell)) ≤ 8)%nat.
Proof.
  intros Hcell. rewrite window_cells. destruct cell as [i j]. simpl fst. simpl snd.
  match goal with
  | |- context [filter P (?a :: ?b :: ?c :: ?d :: ?r)] =>
      change (a :: b :: c :: d :: r) with ([a; b; c; d] ++ r)
  end.
  rewrite filter_app.
  rewrite (filter_cons_False _ (i, j)) by done.
  rewrite length_app.
  pose proof (length_filter P [(i - 1, j - 1); (i - 1, j); (i - 1, j + 1); (i, j - 1)]).
  pose proof (length_filter P [(i, j + 1); (i + 1, j - 1); (i + 1, j); (i + 1, j + 1)]).
  simpl in *. lia.
Qed.

(** X6. [nearby_mines] is the number of cells of the window, other than the
    cell itself, that are on the board and hold a mine; it lies between 0
    and 8, also for a cell outside the board. *)
Theorem nearby_mines_counts_mined_neighbours g cell :
  Minesweeper.nearby_mines g cell
  = Z.of_nat (length (filter (mined_neighbour g cell) (window cell)))
  ∧ 0 ≤ Minesweeper.nearby_mines g cell ≤ 8.
Proof.
  unfold Minesweeper.nearby_mines. rewrite nearby_fold.
  pose proof (length_filter_window (mined_neighbour g cell) cell) as Hle.
  split; [lia|]. unfold mined_neighbour in Hle at 1.
  assert (length (filter (mined_neighbour g cell) (window cell)) ≤ 8)%nat
    by (apply Hle; tauto).
  lia.
Qed.

(** ** [update_safes_mines] in one step *)

(** X7. [update_safes_mines] as one step. With [S] and [M] the known safes and
    the known mines of all sentences, it adds [S] to [safes] and [M] to
    [mines], and it removes the cells of [S] and of [M] from every
    sentence, lowering the count by the number of cells of [M] outside [S]
    that the sentence had. The result does not depend on the order in
    which the two loops go through their sets. *)
Theorem update_safes_mines_closed_form a :
  update_safes_mines a
  = mk (height a) (width a) (moves_made a)
       (found_mines a ∪ mines a) (found_safes a ∪ safes a)
       (prune (found_safes a) (found_mines a) <$> knowledge a).
Proof.
  pose proof (update_safes_mines_fields a) as (Hh & Hw & Hmv & Hs & Hm & _).
  pose proof (knowledge_update_safes_mines a) as HK.
  destruct (update_safes_mines a). simpl in *. by subst.
Qed.

(** ** What [add_new_sentences] appends *)

(** X8. [add_new_sentences] only appends: the knowledge base it returns is the
    one it started with followed by new sentences, which are pairwise
    different and different from every sentence it started with. *)
Theorem add_new_sentences_appends_fresh fuel a a' :
  add_new_sentences fuel a = Some a' →
  ∃ new, knowledge a' = knowledge a ++ new
         ∧ NoDup new ∧ Forall (λ s, s ∉ knowledge a) new.
Proof.
  unfold add_new_sentences.
  destruct (resolve_loop fuel (knowledge a) 0 0) as [K'|] eqn:Hrun; [|done].
  intros [= <-]. simpl.
  eapply (resolve_loop_invariant
            (λ K', ∃ new, K' = knowledge a ++ new
                          ∧ NoDup new ∧ Forall (λ s, s ∉ knowledge a) new));
    [| |exact Hrun].
  - intros K s1 s2 (new & -> & Hnd & Hnew) _ _.
    destruct (resolve_pair_cases (knowledge a ++ new) s1 s2)
      as [->|(-> & _ & _ & Hfresh)]; [by exists new|].
    apply not_elem_of_app in Hfresh as [Hold Hnotnew].
    exists (new ++ [resolve s1 s2]). split; [by rewrite app_assoc|]. split.
    + apply NoDup_app. split; [done|]. split; [|apply NoDup_singleton].
      intros s Hs ->%list_elem_of_singleton. done.
    + apply Forall_app. split; [done|]. by apply Forall_singleton.
  - exists []. split; [by rewrite app_nil_r|]. split; [constructor|done].
Qed.

Lemma add_new_sentences_appends_fresh_witness :
  ∃ new, knowledge (after 40 obs_a 2 3)
         = knowledge (update_safes_mines
                        (add_observation (0, 1) 1 (after 40 obs_a1 2 3))) ++ new
         ∧ NoDup new.
Proof.
  destruct (add_new_sentences_appends_fresh 40
              (update_safes_mines (add_observation (0, 1) 1 (after 40 obs_a1 2 3)))
              (after 40 obs_a 2 3)) as (new & Heq & Hnd & _);
    [by vm_compute|].
  exists new. split; [exact Heq|exact Hnd].
Defined.

(** X9. Every sentence of the knowledge base that [add_new_sentences] returns
    was there at the start or is the difference of two different sentences
    of the result, the cells of the first among those of the second. *)
Theorem add_new_sentences_provenance fuel a a' s :
  add_new_sentences fuel a = Some a' → s ∈ knowledge a' →
  s ∈ knowledge a
  ∨ ∃ s1 s2, s1 ∈ knowledge a' ∧ s2 ∈ knowledge a' ∧ s1 ≠ s2
             ∧ Sentence.cells s1 ⊆ Sentence.cells s2 ∧ s = resolve s1 s2.
Proof.
  unfold add_new_sentences.
  destruct (resolve_loop fuel (knowledge a) 0 0) as [K'|] eqn:Hrun; [|done].
  intros [= <-]. simpl. revert s.
  eapply (resolve_loop_invariant
            (λ K', ∀ s, s ∈ K' →
               s ∈ knowledge a
               ∨ ∃ s1 s2, s1 ∈ K' ∧ s2 ∈ K' ∧ s1 ≠ s2
                          ∧ Sentence.cells s1 ⊆ Sentence.cells s2
                          ∧ s = resolve s1 s2));
    [|by left|exact Hrun].
  intros K s1 s2 HK H1 H2. simpl.
  destruct (resolve_pair_cases K s1 s2) as [->|(-> & Hne & Hsub & _)]; [auto|].
  intros s Hs.
  apply elem_of_app in Hs as [Hs| ->%list_elem_of_singleton].
  - destruct (HK s Hs) as [|(x & y & Hx & Hy & Hxy)]; [by left|right].
    exists x, y. rewrite !elem_of_app. tauto.
  - right. exists s1, s2. rewrite !elem_of_app. tauto.
Qed.

Lemma add_new_sentences_provenance_witness :
  sentence [(0, 2); (1, 2)] 0
    ∈ knowledge (update_safes_mines
                   (add_observation (0, 1) 1 (after 40 obs_a1 2 3)))
  ∨ ∃ s1 s2, s1 ∈ knowledge (after 40 obs_a 2 3)
             ∧ s2 ∈ knowledge (after 40 obs_a 2 3) ∧ s1 ≠ s2
             ∧ Sentence.cells s1 ⊆ Sentence.cells s2
             ∧ sentence [(0, 2); (1, 2)] 0 = resolve s1 s2.
Proof.
  apply (add_new_sentences_provenance 40 _ (after 40 obs_a 2 3)).
  - by vm_compute.
  - apply (bool_decide_unpack _). by vm_compute.
Defined.

(** X10. When [add_new_sentences] returns, the difference sentence of every two
    different sentences it started with, the cells of the first among those
    of the second, is in the knowledge base. *)
Theorem add_new_sentences_resolves_given_pairs fuel a a' s1 s2 :
  add_new_sentences fuel a = Some a' →
  s1 ∈ knowledge a → s2 ∈ knowledge a → s1 ≠ s2 →
  Sentence.cells s1 ⊆ Sentence.cells s2 →
  resolve s1 s2 ∈ knowledge a'.
Proof.
  unfold add_new_sentences.
  destruct (resolve_loop fuel (knowledge a) 0 0) as [K'|] eqn:Hrun; [|done].
  intros [= <-] [p Hp]%list_elem_of_lookup [q Hq]%list_elem_of_lookup Hne Hsub.
  simpl. eapply (resolve_loop_visits fuel (knowledge a) 0 0 K' p q); [done..|lia|done|done].
Qed.

Lemma add_new_sentences_resolves_given_pairs_witness :
  resolve (sentence [(1, 0); (1, 1)] 1)
          (sentence [(0, 2); (1, 0); (1, 2); (1, 1)] 1)
    ∈ knowledge (after 40 obs_a 2 3).
Proof.
  apply (add_new_sentences_resolves_given_pairs 40
           (update_safes_mines (add_observation (0, 1) 1 (after 40 obs_a1 2 3)))).
  - by vm_compute.
  - apply (bool_decide_unpack _). by vm_compute.
  - apply (bool_decide_unpack _). by vm_compute.
  - apply (bool_decide_unpack _). by vm_compute.
  - apply (bool_decide_unpack _). by vm_compute.
Defined.

(** ** Knowledge on which [add_new_sentences] does not return *)

Lemma least_count_exists (K : list Sentence.t) :
  K ≠ [] →
  ∃ m p, K !! p = Some m
         ∧ Forall (λ s, Sentence.count m ≤ Sentence.count s) K.
Proof.
  induction K as [|x K IH]; [done|]. intros _.
  destruct K as [|y K].
  { exists x, 0%nat. split; [done|]. apply Forall_singleton. lia. }
  destruct IH as (m & p & Hp & Hmin); [done|].
  destruct (decide (Sentence.count x ≤ Sentence.count m)) as [Hle|Hgt].
  - exists x, 0%nat. split; [done|]. constructor; [lia|].
    eapply Forall_impl; [exact Hmin|]. simpl. intros; lia.
  - exists m, (S p). split; [done|]. constructor; [lia|done].
Qed.

Lemma resolve_loop_reaches_divergence fuel K i j p s1 e :
  K !! p = Some s1 → Sentence.cells s1 = ∅ → 0 < Sentence.count s1 →
  e ∈ K → Sentence.count e < Sentence.count s1 →
  (i < p ∨ (i = p ∧ j = 0))%nat →
  resolve_loop fuel K i j = None.
Proof.
  intros Hp Hcells Hpos He Hlt. revert K i j Hp He.
  induction fuel as [|fuel IH]; intros K i j Hp He Hij; [done|].
  destruct Hij as [Hip|[-> ->]].
  - simpl. pose proof (lookup_lt_Some _ _ _ Hp) as Hplt.
    destruct (K !! i) as [x|] eqn:Hi; [|apply lookup_ge_None in Hi; lia].
    destruct (K !! j) as [y|] eqn:Hj.
    + pose proof (resolve_pair_prefix K x y) as Hpre. apply IH.
      * by eapply prefix_lookup_Some.
      * destruct Hpre as [k ->]. apply elem_of_app. by left.
      * by left.
    + apply IH; [done|done|lia].
  - destruct (least_count_exists K) as (m & q & Hq & Hmin).
    { intros ->. by apply elem_of_nil in He. }
    assert (Sentence.count m ≤ Sentence.count e) as Hme
      by (rewrite Forall_forall in Hmin; by apply Hmin).
    apply (resolve_loop_diverges (S fuel) K p 0 q s1 m); (done || lia).
Qed.



(** ** Two sentences with the same cells and different counts *)

Lemma resolve_loop_at_pair fuel K i j s1 s2 :
  K !! i = Some s1 → K !! j = Some s2 →
  resolve_loop (S fuel) K i j = resolve_loop fuel (resolve_pair K s1 s2) i (S j)
  ∧ resolve_loop_points (S fuel) K i j
    = resolve_pair K s1 s2
      :: resolve_loop_points fuel (resolve_pair K s1 s2) i (S j).
Proof. intros Hi Hj. simpl. by rewrite Hi, Hj. Qed.

Lemma resolve_loop_at_end fuel K i j s1 :
  K !! i = Some s1 → K !! j = None →
  resolve_loop (S fuel) K i j = resolve_loop fuel K (S i) 0
  ∧ resolve_loop_points (S fuel) K i j = resolve_loop_points fuel K (S i) 0.
Proof. intros Hi Hj. simpl. by rewrite Hi, Hj. Qed.

(** One execution of the inner body with a sentence without cells and with
    a positive count at the outer position: a sentence of least count is
    again ahead of the inner iterator. *)
Lemma least_count_ahead K i j p s1 e s2 :
  K !! i = Some s1 → Sentence.cells s1 = ∅ → 0 < Sentence.count s1 →
  K !! p = Some e → (j ≤ p)%nat → Sentence.count e < Sentence.count s1 →
  Forall (λ s, Sentence.count e ≤ Sentence.count s) K →
  K !! j = Some s2 →
  ∃ p' e', resolve_pair K s1 s2 !! i = Some s1
           ∧ resolve_pair K s1 s2 !! p' = Some e'
           ∧ (S j ≤ p')%nat
           ∧ Sentence.count e' < Sentence.count s1
           ∧ Forall (λ s, Sentence.count e' ≤ Sentence.count s)
                    (resolve_pair K s1 s2).
Proof.
  intros Hi Hcells Hpos Hp Hj He Hmin Hs2.
  pose proof (lookup_lt_Some _ _ _ Hp) as Hplt.
  assert (∀ n, (K ++ [n]) !! i = Some s1) as Hi'
    by (intros n; by apply lookup_app_l_Some).
  assert (∀ n, Sentence.count n ≤ Sentence.count e →
               Forall (λ s, Sentence.count n ≤ Sentence.count s) (K ++ [n]))
    as Hnew.
  { intros n Hn. apply Forall_app. split; [|apply Forall_singleton; lia].
    eapply Forall_impl; [exact Hmin|]. simpl. intros; lia. }
  destruct (decide (j = p)) as [->|Hjp].
  - rewrite Hp in Hs2. injection Hs2 as <-.
    assert (resolve s1 e ∉ K) as Hfresh.
    { intros Hin. rewrite Forall_forall in Hmin. apply Hmin in Hin.
      simpl in Hin. lia. }
    assert (resolve_pair K s1 e = K ++ [resolve s1 e]) as ->.
    { unfold resolve_pair. rewrite decide_False by (intros ->; lia).
      rewrite decide_True by (rewrite Hcells; apply empty_subseteq).
      simpl. by rewrite decide_False. }
    exists (length K), (resolve s1 e).
    split; [done|]. split; [by apply list_lookup_middle|].
    split; [lia|]. split; [simpl; lia|]. apply Hnew. simpl. lia.
  - destruct (resolve_pair_cases K s1 s2) as [->|(-> & _ & _ & _)].
    { exists p, e. repeat split; (done || lia). }
    destruct (decide (Sentence.count (resolve s1 s2) < Sentence.count e))
      as [Hlt|Hge].
    + exists (length K), (resolve s1 s2).
      split; [done|]. split; [by apply list_lookup_middle|].
      split; [lia|]. split; [lia|]. apply Hnew. lia.
    + exists p, e. split; [done|]. split; [by apply lookup_app_l_Some|].
      split; [lia|]. split; [done|]. apply Forall_app. split; [done|].
      apply Forall_singleton. lia.
Qed.

(** With such a sentence at the outer position the outer iterator stays
    where it is, and a property of sentences that resolution with this
    sentence keeps holds for every sentence at every point. *)
Lemma resolve_loop_points_outer_stays (Q : Sentence.t → Prop)
    fuel K i j p s1 e :
  (∀ s2, Q s2 → s2 ≠ s1 → Q (resolve s1 s2)) →
  K !! i = Some s1 → Sentence.cells s1 = ∅ → 0 < Sentence.count s1 →
  K !! p = Some e → (j ≤ p)%nat → Sentence.count e < Sentence.count s1 →
  Forall (λ s, Sentence.count e ≤ Sentence.count s) K →
  Forall Q K →
  Forall (Forall Q) (resolve_loop_points fuel K i j).
Proof.
  intros HQ Hi Hcells Hpos. revert K j p e Hi.
  induction fuel as [|fuel IH]; intros K j p e Hi Hp Hj He Hmin HK;
    [constructor|].
  pose proof (lookup_lt_Some _ _ _ Hp) as Hplt.
  destruct (K !! j) as [s2|] eqn:Hs2; [|apply lookup_ge_None in Hs2; lia].
  destruct (resolve_loop_at_pair fuel K i j s1 s2 Hi Hs2) as [_ ->].
  destruct (least_count_ahead K i j p s1 e s2)
    as (p' & e' & Hi' & Hp' & Hj' & He' & Hmin'); [done..|].
  assert (Forall Q (resolve_pair K s1 s2)) as HK'.
  { destruct (resolve_pair_cases K s1 s2) as [->|(-> & Hne & _ & _)]; [done|].
    apply Forall_app. split; [done|]. apply Forall_singleton.
    apply HQ; [|congruence]. rewrite Forall_forall in HK. apply HK.
    by eapply list_elem_of_lookup_2. }
  constructor; [done|]. by apply (IH _ _ p' e').
Qed.

(** C10, as stated, fails: the knowledge base [{} = 1], [{(0,0)} = 1],
    [{(0,0)} = 0] holds two sentences with the same cells and different
    counts, but the loops of [add_new_sentences] stay at the first sentence
    for ever. The call does not return, and at no point does the list hold
    a sentence without cells other than the first one: none is appended,
    in particular none with a negative count. *)
Lemma equal_cells_pair_never_reached :
  let s1 := sentence [(0, 0)] 1 in
  let s2 := sentence [(0, 0)] 0 in
  let a := set_knowledge [Sentence.mk ∅ 1; s1; s2] (init 1 1) in
  s1 ∈ knowledge a ∧ s2 ∈ knowledge a
  ∧ Sentence.cells s1 = Sentence.cells s2
  ∧ Sentence.count s1 ≠ Sentence.count s2
  ∧ (∀ fuel, add_new_sentences fuel a = None)
  ∧ ∀ fuel,
      Forall (λ K, ∀ s, s ∈ K → Sentence.cells s = ∅ → s = Sentence.mk ∅ 1)
             (resolve_loop_points fuel (knowledge a) 0 0).
Proof.
  intros s1 s2 a.
  assert (Forall (λ s, Sentence.count s2 ≤ Sentence.count s) (knowledge a))
    as Hmin by (repeat constructor; simpl; lia).
  split; [simpl; right; by left|]. split; [simpl; right; right; by left|].
  split; [done|]. split; [simpl; lia|]. split.
  - intros fuel. unfold add_new_sentences.
    rewrite (resolve_loop_diverges fuel (knowledge a) 0 0 2
               (Sentence.mk ∅ 1) s2); first [done | simpl; lia].
  - intros fuel.
    assert (Forall (Forall (λ s, s = Sentence.mk ∅ 1
                                 ∨ Sentence.cells s = {[ (0, 0) ]}))
                   (resolve_loop_points fuel (knowledge a) 0 0)) as Hpoints.
    { apply (resolve_loop_points_outer_stays _ fuel (knowledge a) 0 0 2
               (Sentence.mk ∅ 1) s2).
      - intros x [->|Hx] Hne; [done|]. right. simpl. rewrite Hx.
        apply difference_empty_L.
      - done.
      - done.
      - simpl. lia.
      - done.
      - lia.
      - simpl. lia.
      - exact Hmin.
      - simpl. rewrite !Forall_cons, Forall_nil.
        split; [by left|]. split; [right|split; [right|done]];
          apply union_empty_r_L. }
    eapply Forall_impl; [exact Hpoints|].
    intros K HK s Hs Hempty. rewrite Forall_forall in HK.
    destruct (HK s Hs) as [->|Hx]; [done|].
    rewrite Hempty in Hx. exfalso.
    assert ((0, 0) ∈ (∅ : gset Cell)) as Hin
      by (rewrite Hx; by apply elem_of_singleton).
    by apply elem_of_empty in Hin.
Qed.

(** C10, amended. Two sentences with the same cells and different counts:
    whenever the iterators of [add_new_sentences] stand at the pair, in
    either order, the body takes it for a subset pair and the loops go on
    with the difference sentence in the list (appended unless an equal
    sentence is there already). Both difference sentences have no cells and
    a nonzero count, and one count is negative. The iterators need not come
    to the pair. They do when the two sentences, with at least one cell,
    are the whole knowledge base: [add_new_sentences] appends the
    difference sentence of the one order, then that of the other, and then
    does not return. *)
Theorem equal_cells_pair_in_loops s1 s2 :
  Sentence.cells s1 = Sentence.cells s2 →
  Sentence.count s1 ≠ Sentence.count s2 →
  let n12 := resolve s1 s2 in
  let n21 := resolve s2 s1 in
  (Sentence.cells n12 = ∅ ∧ Sentence.cells n21 = ∅
   ∧ Sentence.count n12 ≠ 0 ∧ Sentence.count n21 ≠ 0
   ∧ (Sentence.count n12 < 0 ∨ Sentence.count n21 < 0))
  ∧ (∀ K p q fuel, K !! p = Some s1 → K !! q = Some s2 →
       let K' := if decide (n12 ∈ K) then K else K ++ [n12] in
       resolve_loop (S fuel) K p q = resolve_loop fuel K' p (S q)
       ∧ resolve_loop_points (S fuel) K p q
         = K' :: resolve_loop_points fuel K' p (S q))
  ∧ (∀ K p q fuel, K !! p = Some s2 → K !! q = Some s1 →
       let K' := if decide (n21 ∈ K) then K else K ++ [n21] in
       resolve_loop (S fuel) K p q = resolve_loop fuel K' p (S q)
       ∧ resolve_loop_points (S fuel) K p q
         = K' :: resolve_loop_points fuel K' p (S q))
  ∧ (Sentence.cells s1 ≠ ∅ →
     ∀ a, knowledge a = [s1; s2] →
       resolve_loop_points 5 (knowledge a) 0 0
       = [[s1; s2]; [s1; s2; n12]; [s1; s2; n12]; [s1; s2; n12; n21]]
       ∧ ∀ fuel, add_new_sentences fuel a = None).
Proof.
  intros Hcells Hcount n12 n21.
  destruct (resolve_pair_equal_cells [] s1 s2 Hcells Hcount)
    as (_ & _ & _ & _ & Hc12 & Hc21 & Hn12 & Hn21 & Hneg).
  fold n12 in Hc12, Hn12, Hneg. fold n21 in Hc21, Hn21, Hneg.
  split; [done|]. split; [|split].
  - intros K p q fuel Hp Hq K'.
    destruct (resolve_pair_equal_cells K s1 s2 Hcells Hcount) as (Heq & _).
    fold n12 in Heq. fold K' in Heq. rewrite <- Heq.
    by apply resolve_loop_at_pair.
  - intros K p q fuel Hp Hq K'.
    destruct (resolve_pair_equal_cells K s1 s2 Hcells Hcount) as (_ & Heq & _).
    fold n21 in Heq. fold K' in Heq. rewrite <- Heq.
    by apply resolve_loop_at_pair.
  - intros Hcell a HK.
    assert (s1 ≠ s2) as Hne by congruence.
    assert (n12 ≠ s1 ∧ n12 ≠ s2 ∧ n21 ≠ s1 ∧ n21 ≠ s2 ∧ n21 ≠ n12)
      as (H1 & H2 & H3 & H4 & H5).
    { split; [intros Heq; apply Hcell; rewrite <- Heq; exact Hc12|].
      split; [intros Heq; apply Hcell; rewrite Hcells, <- Heq; exact Hc12|].
      split; [intros Heq; apply Hcell; rewrite <- Heq; exact Hc21|].
      split; [intros Heq; apply Hcell; rewrite Hcells, <- Heq; exact Hc21|].
      intros Heq. apply (f_equal Sentence.count) in Heq.
      unfold n12, n21 in Heq. simpl in Heq. lia. }
    assert (resolve_pair [s1; s2] s1 s1 = [s1; s2]) as E1
      by (unfold resolve_pair; by rewrite decide_True).
    assert (resolve_pair [s1; s2] s1 s2 = [s1; s2; n12]) as E2.
    { destruct (resolve_pair_equal_cells [s1; s2] s1 s2 Hcells Hcount)
        as (-> & _).
      rewrite decide_False; [done|].
      rewrite !elem_of_cons, elem_of_nil. fold n12. tauto. }
    assert (resolve_pair [s1; s2; n12] s1 n12 = [s1; s2; n12]) as E3.
    { unfold resolve_pair. rewrite decide_False by done.
      rewrite decide_False; [done|]. rewrite Hc12. intros Hsub.
      apply Hcell. apply set_eq. intros c. split; [apply Hsub|].
      intros []%elem_of_empty. }
    assert (resolve_pair [s1; s2; n12] s2 s1 = [s1; s2; n12; n21]) as E4.
    { destruct (resolve_pair_equal_cells [s1; s2; n12] s1 s2 Hcells Hcount)
        as (_ & -> & _).
      rewrite decide_False; [done|].
      rewrite !elem_of_cons, elem_of_nil. fold n21. tauto. }
    assert (∀ fuel, resolve_loop (5 + fuel) [s1; s2] 0 0
                    = resolve_loop fuel [s1; s2; n12; n21] 1 1) as Hrun.
    { intros fuel. change (5 + fuel)%nat with (S (S (S (S (S fuel))))).
      rewrite (proj1 (resolve_loop_at_pair _ [s1; s2] 0 0 s1 s1
                        eq_refl eq_refl)), E1.
      rewrite (proj1 (resolve_loop_at_pair _ [s1; s2] 0 1 s1 s2
                        eq_refl eq_refl)), E2.
      rewrite (proj1 (resolve_loop_at_pair _ [s1; s2; n12] 0 2 s1 n12
                        eq_refl eq_refl)), E3.
      rewrite (proj1 (resolve_loop_at_end _ [s1; s2; n12] 0 3 s1
                        eq_refl eq_refl)).
      by rewrite (proj1 (resolve_loop_at_pair _ [s1; s2; n12] 1 0 s2 s1
                           eq_refl eq_refl)), E4. }
    split.
    + rewrite HK.
      rewrite (proj2 (resolve_loop_at_pair _ [s1; s2] 0 0 s1 s1
                        eq_refl eq_refl)), E1.
      rewrite (proj2 (resolve_loop_at_pair _ [s1; s2] 0 1 s1 s2
                        eq_refl eq_refl)), E2.
      rewrite (proj2 (resolve_loop_at_pair _ [s1; s2; n12] 0 2 s1 n12
                        eq_refl eq_refl)), E3.
      rewrite (proj2 (resolve_loop_at_end _ [s1; s2; n12] 0 3 s1
                        eq_refl eq_refl)).
      by rewrite (proj2 (resolve_loop_at_pair _ [s1; s2; n12] 1 0 s2 s1
                           eq_refl eq_refl)), E4.
    + intros fuel. unfold add_new_sentences. rewrite HK.
      destruct (resolve_loop fuel [s1; s2] 0 0) as [K'|] eqn:Hsome; [|done].
      exfalso.
      apply (resolve_loop_fuel_mono _ (5 + fuel)) in Hsome; [|lia].
      rewrite Hrun in Hsome.
      destruct (decide (0 < Sentence.count n12)) as [Hpos|Hnonpos].
      * rewrite (resolve_loop_reaches_divergence fuel _ 1 1 2 n12 n21)
          in Hsome; [done|done|done|done| | |left; lia].
        -- rewrite !elem_of_cons. tauto.
        -- unfold n12, n21 in *. simpl in *. lia.
      * rewrite (resolve_loop_reaches_divergence fuel _ 1 1 3 n21 n12)
          in Hsome; [done|done|done| | | |left; lia].
        -- unfold n12, n21 in *. simpl in *. lia.
        -- rewrite !elem_of_cons. tauto.
        -- unfold n12, n21 in *. simpl in *. lia.
Qed.

Lemma equal_cells_pair_in_loops_witness :
  let s1 := sentence [(0, 0)] 1 in
  let s2 := sentence [(0, 0)] 0 in
  let a := set_knowledge [s1; s2] (init 1 1) in
  Sentence.cells s1 ≠ ∅
  ∧ resolve_loop_points 5 (knowledge a) 0 0
    = [[s1; s2]; [s1; s2; Sentence.mk ∅ (-1)]; [s1; s2; Sentence.mk ∅ (-1)];
       [s1; s2; Sentence.mk ∅ (-1); Sentence.mk ∅ 1]]
  ∧ ∀ fuel, add_new_sentences fuel a = None.
Proof.
  intros s1 s2 a.
  assert (Sentence.cells s1 = Sentence.cells s2) as Hcells by reflexivity.
  assert (Sentence.count s1 ≠ Sentence.count s2) as Hcount by (simpl; lia).
  assert (Sentence.cells s1 ≠ ∅) as Hcell.
  { apply (bool_decide_unpack _). by vm_compute. }
  split; [exact Hcell|].
  destruct (equal_cells_pair_in_loops s1 s2 Hcells Hcount)
    as (_ & _ & _ & Hwhole).
  destruct (Hwhole Hcell a eq_refl) as [Hpoints Hnone].
  split; [|exact Hnone].
  rewrite Hpoints. repeat f_equal; by vm_compute.
Defined.

(** ** Classified cells are in no sentence *)

Lemma cells_prune S M s :
  Sentence.cells (prune S M s) = Sentence.cells s ∖ (S ∪ M).
Proof. done. Qed.

Lemma pruned_mark_safe c a : pruned a → pruned (mark_safe c a).
Proof.
  unfold pruned. intros Ha. simpl. apply Forall_fmap.
  eapply Forall_impl; [exact Ha|]. intros s Hs. simpl.
  rewrite mark_safe_prune, cells_prune. set_solver.
Qed.

Lemma pruned_mark_mine c a : pruned a → pruned (mark_mine c a).
Proof.
  unfold pruned. intros Ha. simpl. apply Forall_fmap.
  eapply Forall_impl; [exact Ha|]. intros s Hs. simpl.
  rewrite mark_mine_prune, cells_prune. set_solver.
Qed.

Lemma pruned_mark_all mark xs a :
  (∀ c a, pruned a → pruned (mark c a)) →
  pruned a → pruned (mark_all mark xs a).
Proof.
  intros Hmark. revert a. unfold mark_all.
  induction xs as [|x xs IH]; intros a Ha; simpl; [done|].
  by apply IH, Hmark.
Qed.

Lemma pruned_update_safes_mines a : pruned a → pruned (update_safes_mines a).
Proof.
  intros Ha. unfold update_safes_mines.
  apply pruned_mark_all; [apply pruned_mark_mine|].
  apply pruned_mark_all; [apply pruned_mark_safe|done].
Qed.

Lemma get_neighbours_cells a cell count c :
  c ∈ (get_neighbours a cell count).1
  ↔ c ∈ window cell ∧ unknown_neighbour a cell c.
Proof.
  unfold get_neighbours. rewrite neighbours_fold. simpl.
  rewrite elem_of_union, elem_of_list_to_set, list_elem_of_filter.
  rewrite elem_of_empty. tauto.
Qed.

Lemma pruned_add_observation cell count a :
  pruned a → pruned (add_observation cell count a).
Proof.
  intros Ha. unfold add_observation.
  set (a1 := mark_safe cell _).
  assert (pruned a1) as Ha1 by (by apply pruned_mark_safe).
  pose proof (get_neighbours_cells a1 cell count) as Hnb.
  destruct (get_neighbours a1 cell count) as [nb n]. simpl in Hnb.
  unfold pruned. simpl. apply Forall_app. split; [exact Ha1|].
  apply Forall_singleton. simpl. intros c Hc Hcl.
  apply Hnb in Hc as [_ (_ & Hs & Hm & _)]. simpl in *. set_solver.
Qed.

Lemma pruned_add_new_sentences fuel a a' :
  pruned a → add_new_sentences fuel a = Some a' → pruned a'.
Proof.
  unfold add_new_sentences. intros Ha.
  destruct (resolve_loop fuel (knowledge a) 0 0) as [K'|] eqn:Hrun; [|done].
  intros [= <-]. unfold pruned. simpl.
  eapply (resolve_loop_invariant
            (Forall (λ s, Sentence.cells s ## safes a ∪ mines a)));
    [|exact Ha|exact Hrun].
  intros K s1 s2 HK H1 H2.
  destruct (resolve_pair_cases K s1 s2) as [->|(-> & _)]; [done|].
  apply Forall_app. split; [done|]. apply Forall_singleton.
  rewrite Forall_forall in HK. specialize (HK s2 H2). simpl. set_solver.
Qed.

(** X12. After every call of [add_knowledge], whatever its arguments, no
    sentence of the knowledge base mentions a cell of [safes] or of
    [mines]. *)
Theorem classified_cells_leave_sentences h w a :
  called h w a → pruned a.
Proof.
  induction 1 as [|a fuel cell count a' _ IH Hrun]; [constructor|].
  unfold add_knowledge, saturate in Hrun.
  eapply pruned_add_new_sentences; [|exact Hrun].
  by apply pruned_update_safes_mines, pruned_add_observation.
Qed.

Lemma classified_cells_leave_sentences_witness :
  called 2 3 (after 40 obs_a 2 3) ∧ pruned (after 40 obs_a 2 3).
Proof.
  assert (called 2 3 (after 40 obs_a 2 3)) as H
    by (apply (replay_called 40 obs_a); by vm_compute).
  split; [exact H|]. exact (classified_cells_leave_sentences 2 3 _ H).
Defined.

(** ** The sentence of an observation inside its own call *)

Lemma length_filter_none (P : Cell → Prop) `{∀ c, Decision (P c)} l :
  (∀ x, x ∈ l → ¬ P x) → length (filter P l) = 0%nat.
Proof.
  induction l as [|x l IH]; intros Hl; [done|].
  rewrite filter_cons_False by (apply Hl; by left).
  apply IH. intros y Hy. apply Hl. by right.
Qed.

(** [get_neighbours] reads the dimensions, [safes] and [mines] only. *)
Lemma get_neighbours_ext a b cell count :
  height a = height b → width a = width b →
  safes a = safes b → mines a = mines b →
  get_neighbours a cell count = get_neighbours b cell count.
Proof.
  intros Hh Hw Hs Hm. unfold get_neighbours.
  generalize (∅ : gset Cell, count). generalize (window cell).
  intros l. induction l as [|x l IH]; intros acc; [done|]. simpl.
  assert (neighbours_step a cell acc x = neighbours_step b cell acc x) as ->
    by (unfold neighbours_step; by rewrite Hh, Hw, Hs, Hm).
  apply IH.
Qed.

Lemma add_observation_sentence cell count a :
  ∃ K, knowledge (add_observation cell count a)
       = K ++ [Sentence.mk (get_neighbours (mark_safe cell a) cell count).1
                           (get_neighbours (mark_safe cell a) cell count).2].
Proof.
  unfold add_observation. set (a1 := mark_safe cell (mk _ _ _ _ _ _)).
  rewrite (get_neighbours_ext a1 (mark_safe cell a) cell count) by done.
  destruct (get_neighbours (mark_safe cell a) cell count) as [nb n].
  simpl. by eexists.
Qed.

Lemma observation_sentence_found cell count a :
  let nb := get_neighbours (mark_safe cell a) cell count in
  (nb.2 = 0 → nb.1 ⊆ found_safes (add_observation cell count a))
  ∧ (Z.of_nat (size nb.1) = nb.2
     → nb.1 ⊆ found_mines (add_observation cell count a)).
Proof.
  intros nb.
  destruct (add_observation_sentence cell count a) as [K HK]. fold nb in HK.
  split; intros Hcount c Hc.
  - unfold found_safes. rewrite HK, fmap_app, union_list_app.
    apply elem_of_union. right. simpl.
    unfold Sentence.known_safes. simpl. rewrite decide_True by done.
    set_solver.
  - unfold found_mines. rewrite HK, fmap_app, union_list_app.
    apply elem_of_union. right. simpl.
    unfold Sentence.known_mines. simpl. rewrite decide_True by done.
    set_solver.
Qed.

(** X13. The sentence that a call of [add_knowledge] builds from its observation
    is looked at by [update_safes_mines] in the same call: if its count is
    0 all its cells are in [safes] when the call returns, and if its count
    is the number of its cells they are all in [mines]. *)
Theorem observation_sentence_is_extracted fuel cell count a a' :
  add_knowledge fuel cell count a = Some a' →
  let nb := get_neighbours (mark_safe cell a) cell count in
  (nb.2 = 0 → nb.1 ⊆ safes a')
  ∧ (Z.of_nat (size nb.1) = nb.2 → nb.1 ⊆ mines a').
Proof.
  intros Hrun nb.
  apply add_knowledge_fields in Hrun as (_ & _ & _ & -> & ->).
  destruct (observation_sentence_found cell count a) as [Hzero Hfull].
  fold nb in Hzero, Hfull.
  split; intros Hcount c Hc; apply elem_of_union; left;
    [by apply Hzero|by apply Hfull].
Qed.

Lemma observation_sentence_is_extracted_witness :
  (get_neighbours (mark_safe (1, 1) (init 3 3)) (1, 1) 0).1
    ⊆ safes (after 3 [((1, 1), 0)] 3 3).
Proof.
  assert (add_knowledge 3 (1, 1) 0 (init 3 3)
          = Some (after 3 [((1, 1), 0)] 3 3)) as Hrun by (by vm_compute).
  assert ((get_neighbours (mark_safe (1, 1) (init 3 3)) (1, 1) 0).2 = 0)
    as Hzero by (by vm_compute).
  exact (proj1 (observation_sentence_is_extracted 3 (1, 1) 0 _ _ Hrun) Hzero).
Defined.

(** X14. An observation with count 0 at a cell that has no known mine around it
    (other than cells already in [safes]) puts every cell of the board
    around it in [safes] in the same call. *)
Theorem zero_count_marks_window_safe fuel cell a a' :
  (∀ c, c ∈ window cell → c ∈ mines a → c = cell ∨ c ∈ safes a) →
  add_knowledge fuel cell 0 a = Some a' →
  ∀ c, c ∈ window cell → in_bounds (height a) (width a) c → c ∈ safes a'.
Proof.
  intros Hmines Hrun c Hc Hin.
  apply add_knowledge_fields in Hrun as (_ & _ & _ & -> & _).
  destruct (decide (c = cell ∨ c ∈ safes a)) as [Hknown|Hnew].
  { set_solver. }
  assert (get_neighbours (mark_safe cell a) cell 0
          = ((get_neighbours (mark_safe cell a) cell 0).1, 0)) as Hnb.
  { unfold get_neighbours. rewrite neighbours_fold. simpl. f_equal.
    rewrite length_filter_none; [lia|].
    intros x Hx (Hne & Hsafe & Hmine). simpl in *.
    destruct (Hmines x Hx Hmine); set_solver. }
  destruct (observation_sentence_found cell 0 a) as [Hzero _].
  apply elem_of_union. left. apply Hzero; [by rewrite Hnb|].
  apply get_neighbours_cells. split; [done|].
  unfold unknown_neighbour. simpl.
  split; [tauto|]. split; [set_solver|]. split; [|done].
  intros Hmine. destruct (Hmines c Hc Hmine); tauto.
Qed.

Lemma zero_count_marks_window_safe_witness :
  (0, 0) ∈ safes (after 3 [((1, 1), 0)] 3 3).
Proof.
  apply (zero_count_marks_window_safe 3 (1, 1) (init 3 3)).
  - intros c _ Hc. simpl in Hc. by apply elem_of_empty in Hc.
  - by vm_compute.
  - apply (bool_decide_unpack _). by vm_compute.
  - simpl. unfold in_bounds. simpl. lia.
Defined.

(** ** States reached by well-formed observations *)

(** X15. In a state reached by well-formed observations of a game, everything
    the agent holds is true of that game: every cell of [mines] is a mine,
    no cell of [safes] is one, the played cells and [safes] are on the
    board, and the count of every sentence is the number of mines among its
    cells. *)
Theorem reachable_knowledge_is_true g a :
  wf_game g → reachable g a →
  mines a ⊆ Minesweeper.mines g
  ∧ safes a ## Minesweeper.mines g
  ∧ moves_made a ⊆ safes a
  ∧ safes a ⊆ board (Minesweeper.height g) (Minesweeper.width g)
  ∧ Forall (sound g) (knowledge a).
Proof.
  intros Hgame Ha. apply (reachable_consistent g Hgame) in Ha.
  by destruct Ha.
Qed.

Lemma reachable_knowledge_is_true_witness :
  mines (after 40 obs_f 2 3) ⊆ Minesweeper.mines game_a
  ∧ safes (after 40 obs_f 2 3) ## Minesweeper.mines game_a.
Proof.
  destruct (reachable_knowledge_is_true game_a _ wf_game_a reachable_f)
    as (Hm & Hs & _).
  split; [exact Hm|exact Hs].
Defined.

(** X16. In a state reached by well-formed observations, [moves_left] is the
    number of cells of the board that are neither played nor known mines,
    so [make_random_move] returns [None] exactly when no such cell is
    left. *)
Theorem reachable_moves_left g a :
  wf_game g → 0 ≤ Minesweeper.height g → 0 ≤ Minesweeper.width g →
  reachable g a →
  moves_left a
  = Z.of_nat (size (board (height a) (width a) ∖ (moves_made a ∪ mines a)))
  ∧ ∀ draws, make_random_move draws a = NoMove
             ↔ board (height a) (width a) ⊆ moves_made a ∪ mines a.
Proof.
  intros Hgame Hh Hw Ha. apply (reachable_consistent g Hgame) in Ha.
  destruct Ha as [Hha Hwa Hs Hsb Hm Hmv _]. rewrite Hha, Hwa.
  assert (moves_made a ⊆ board (Minesweeper.height g) (Minesweeper.width g))
    as Hmoves by (etrans; done).
  assert (mines a ⊆ board (Minesweeper.height g) (Minesweeper.width g))
    as Hmines by (etrans; done).
  assert (moves_made a ## mines a) as Hdisj.
  { intros c Hc1 Hc2. apply (Hs c); auto. }
  split.
  - unfold moves_left, board_size. rewrite Hha, Hwa.
    rewrite size_difference by (by apply union_least).
    rewrite (size_union _ _ Hdisj).
    assert (size (moves_made a ∪ mines a)
            ≤ size (board (Minesweeper.height g) (Minesweeper.width g)))%nat
      as Hle by (apply subseteq_size; by apply union_least).
    rewrite (size_union _ _ Hdisj) in Hle.
    pose proof (size_board _ _ Hh Hw). lia.
  - intros draws.
    pose proof (moves_left_zero a) as Hzero. rewrite Hha, Hwa in Hzero.
    rewrite <- Hzero by done. unfold make_random_move.
    case_decide; [done|]. split; [|done].
    intros Hrun. by apply draw_loop_not_none in Hrun.
Qed.

Lemma reachable_moves_left_witness :
  moves_left (after 40 obs_f 2 3)
  = Z.of_nat (size (board 2 3 ∖ (moves_made (after 40 obs_f 2 3)
                                 ∪ mines (after 40 obs_f 2 3)))).
Proof.
  refine (proj1 (reachable_moves_left game_a _ wf_game_a _ _ reachable_f));
    simpl; lia.
Defined.

(** ** One call of [add_knowledge] *)

(** X17. A call of [add_knowledge] that returns leaves the dimensions as they
    are, adds exactly the observed cell to [moves_made], and leaves the
    knowledge base longer than before: sentences are added, never
    removed. *)
Theorem add_knowledge_records_move fuel cell count a a' :
  add_knowledge fuel cell count a = Some a' →
  height a' = height a ∧ width a' = width a
  ∧ moves_made a' = {[cell]} ∪ moves_made a
  ∧ (length (knowledge a) < length (knowledge a'))%nat.
Proof.
  intros Hrun.
  pose proof (add_knowledge_fields _ _ _ _ _ Hrun) as (Hh & Hw & Hmv & _).
  repeat split; try done.
  unfold add_knowledge, saturate in Hrun.
  apply add_new_sentences_fields in Hrun as (_ & _ & _ & _ & _ & Hpre).
  apply prefix_length in Hpre.
  destruct (update_safes_mines_fields (add_observation cell count a))
    as (_ & _ & _ & _ & _ & Hlen).
  rewrite Hlen in Hpre.
  destruct (add_observation_knowledge cell count a) as [s Hs].
  rewrite Hs, length_app, length_fmap in Hpre. simpl in Hpre. lia.
Qed.

Lemma add_knowledge_records_move_witness :
  moves_made (after 40 obs_a 2 3)
  = {[ (0, 1) ]} ∪ moves_made (after 40 obs_a1 2 3)
  ∧ (length (knowledge (after 40 obs_a1 2 3))
     < length (knowledge (after 40 obs_a 2 3)))%nat.
Proof.
  destruct (add_knowledge_records_move 40 (0, 1) 1 (after 40 obs_a1 2 3)
              (after 40 obs_a 2 3)) as (_ & _ & Hmv & Hlen);
    [by vm_compute|].
  split; [exact Hmv|exact Hlen].
Defined.

(** ** Marking cells in a sentence *)

(** X18. Telling a sentence twice that a cell is a mine (or safe) is the same
    as telling it once: the count is lowered once per cell. Marks of two
    different cells can be made in either order. For one and the same
    cell the order matters: marked safe first, the count stays. *)
Theorem sentence_marks_commute c d s :
  Sentence.mark_mine c (Sentence.mark_mine c s) = Sentence.mark_mine c s
  ∧ Sentence.mark_safe c (Sentence.mark_safe c s) = Sentence.mark_safe c s
  ∧ Sentence.mark_mine c (Sentence.mark_safe c s) = Sentence.mark_safe c s
  ∧ Sentence.mark_safe c (Sentence.mark_mine c s) = Sentence.mark_mine c s
  ∧ (c ≠ d →
     Sentence.mark_mine c (Sentence.mark_mine d s)
     = Sentence.mark_mine d (Sentence.mark_mine c s)
     ∧ Sentence.mark_safe c (Sentence.mark_mine d s)
       = Sentence.mark_mine d (Sentence.mark_safe c s)
     ∧ Sentence.mark_safe c (Sentence.mark_safe d s)
       = Sentence.mark_safe d (Sentence.mark_safe c s)).
Proof.
  destruct s as [X n].
  repeat split; try intros Hcd;
    unfold Sentence.mark_mine, Sentence.mark_safe; simpl;
    repeat (case_decide; simpl in * ); try done;
    first [ f_equal; first [lia | set_solver] | exfalso; set_solver ].
Qed.

(** ** Observations and moves together *)

Lemma reachable_a1 : reachable game_a (after 40 obs_a1 2 3).
Proof.
  apply (replay_reachable game_a 40 obs_a1); [|by vm_compute].
  repeat (constructor; [solve_wf_obs|]). constructor.
Qed.

(** X19. The sentence that [add_knowledge] builds from a well-formed observation
    in a state reached by well-formed observations is true of the game:
    the count the board reported, less the known mines around the cell, is
    the number of mines among the cells [get_neighbours] returns. *)
Theorem observation_sentence_is_true g a cell count :
  wf_game g → reachable g a → wf_obs g cell count →
  let nb := get_neighbours (mark_safe cell a) cell count in
  sound g (Sentence.mk nb.1 nb.2).
Proof.
  intros Hgame Ha (Hin & Hsafe & ->).
  apply (reachable_consistent g Hgame) in Ha.
  apply (get_neighbours_sound g (mark_safe cell a) cell Hgame).
  apply consistent_mark_safe; [|done].
  split; [done|by apply elem_of_board].
Qed.

Lemma observation_sentence_is_true_witness :
  wf_obs game_a (0, 1) 1
  ∧ sound game_a
      (Sentence.mk
         (get_neighbours (mark_safe (0, 1) (after 40 obs_a1 2 3)) (0, 1) 1).1
         (get_neighbours (mark_safe (0, 1) (after 40 obs_a1 2 3)) (0, 1) 1).2).
Proof.
  assert (wf_obs game_a (0, 1) 1) as Hobs by solve_wf_obs.
  split; [exact Hobs|].
  exact (observation_sentence_is_true game_a _ (0, 1) 1
           wf_game_a reachable_a1 Hobs).
Defined.

(** X20. Playing the cell that [make_safe_move] returns: after the call of
    [add_knowledge] for it, [make_safe_move] does not return that cell
    again, and [moves_left] is smaller than before. *)
Theorem safe_move_is_not_repeated fuel count a c a' :
  make_safe_move a = Some c →
  add_knowledge fuel c count a = Some a' →
  make_safe_move a' ≠ Some c ∧ moves_left a' < moves_left a.
Proof.
  intros [_ Hnew]%make_safe_move_Some Hrun.
  apply add_knowledge_fields in Hrun as (Hh & Hw & Hmv & _ & Hm).
  split.
  - intros [_ Hc]%make_safe_move_Some. apply Hc. rewrite Hmv. set_solver.
  - unfold moves_left, board_size. rewrite Hh, Hw, Hmv.
    rewrite size_union, size_singleton by set_solver.
    assert (size (mines a) ≤ size (mines a'))%nat
      by (apply subseteq_size; rewrite Hm; set_solver).
    lia.
Qed.

Lemma safe_move_is_not_repeated_witness :
  make_safe_move (after 40 obs_f 2 3) = Some (1, 2)
  ∧ ∃ a', add_knowledge 40 (1, 2) 0 (after 40 obs_f 2 3) = Some a'
          ∧ make_safe_move a' ≠ Some (1, 2)
          ∧ moves_left a' < moves_left (after 40 obs_f 2 3).
Proof.
  assert (make_safe_move (after 40 obs_f 2 3) = Some (1, 2)) as Hmove
    by (by vm_compute).
  split; [exact Hmove|].
  destruct (add_knowledge 40 (1, 2) 0 (after 40 obs_f 2 3)) as [a'|] eqn:Hrun;
    [|by vm_compute in Hrun].
  exists a'. split; [done|].
  exact (safe_move_is_not_repeated 40 0 _ (1, 2) a' Hmove Hrun).
Defined.

(** X21. Sentences are changed in place and keep their position: across a call
    of [add_knowledge], the sentence at each position of the old knowledge
    base is at the same position afterwards, with some of its cells
    removed and a count that is not larger. *)
Theorem sentences_shrink_in_place fuel cell count a a' k s :
  add_knowledge fuel cell count a = Some a' →
  knowledge a !! k = Some s →
  ∃ s', knowledge a' !! k = Some s'
        ∧ Sentence.cells s' ⊆ Sentence.cells s
        ∧ Sentence.count s' ≤ Sentence.count s.
Proof.
  intros Hrun Hk. unfold add_knowledge, saturate in Hrun.
  apply add_new_sentences_fields in Hrun as (_ & _ & _ & _ & _ & Hpre).
  rewrite knowledge_update_safes_mines in Hpre.
  destruct (add_observation_knowledge cell count a) as [s0 Hs0].
  set (S := found_safes (add_observation cell count a)) in *.
  set (M := found_mines (add_observation cell count a)) in *.
  exists (prune S M (Sentence.mark_safe cell s)). split; [|split].
  - eapply prefix_lookup_Some; [|exact Hpre].
    rewrite Hs0, list_lookup_fmap, lookup_app_l
      by (rewrite length_fmap; by eapply lookup_lt_Some).
    by rewrite list_lookup_fmap, Hk.
  - rewrite mark_safe_prune. simpl. set_solver.
  - rewrite mark_safe_prune. simpl. lia.
Qed.

Lemma sentences_shrink_in_place_witness :
  knowledge (after 40 obs_a1 2 3) !! 0%nat
  = Some (sentence [(0, 1); (1, 0); (1, 1)] 1)
  ∧ ∃ s', knowledge (after 40 obs_a 2 3) !! 0%nat = Some s'
          ∧ Sentence.cells s' ⊆ list_to_set [(0, 1); (1, 0); (1, 1)]
          ∧ Sentence.count s' ≤ 1.
Proof.
  assert (knowledge (after 40 obs_a1 2 3) !! 0%nat
          = Some (sentence [(0, 1); (1, 0); (1, 1)] 1)) as Hk by (by vm_compute).
  split; [exact Hk|].
  apply (sentences_shrink_in_place 40 (0, 1) 1 (after 40 obs_a1 2 3)
           (after 40 obs_a 2 3) 0 (sentence [(0, 1); (1, 0); (1, 1)] 1));
    [by vm_compute|exact Hk].
Defined.
